(** * rwkv_tokenizer.c: trie index, token table, encoder and decoder

    A shallow embedding of [src/rwkv_tokenizer.c].

    - A byte ([unsigned char]) is a [Byte.byte]; a buffer is a [list byte].
    - A NUL-terminated C string is the list of the bytes that precede its
      terminator in memory: the terminator is implicit at the end of the list,
      and [strlen] stops at the first NUL byte of the list, if there is one.
    - An [int] that holds a token id or a trie value is a [Z] (the trie uses
      [-1] for "no value"); an [int] that counts positions in a buffer is a
      [nat].  Buffers are assumed to be shorter than [INT_MAX], as the code
      itself assumes when it stores [strlen(text)] in an [int].
    - A [TrieNode] owns its 256 children: the tree of heap nodes is an
      inductive tree, and the array [children[256]] is a function from bytes.
    - The array [idx2token[MAX_TOKENS]] of owned strings is a finite map from
      indices to byte lists; a store outside [0, MAX_TOKENS) is undefined
      behaviour and is reported as such.
    - [malloc]/[calloc] failure ([exit(1)]) is outside the model. *)

From Stdlib Require Import ZArith Lia.
From Stdlib Require Import Strings.Byte Strings.String.
From stdpp Require Import base option list gmap.

Local Open Scope Z_scope.

(** ** Bytes *)

Definition Z_of_byte (b : byte) : Z := Z.of_N (Byte.to_N b).

(** [(unsigned char)z] and [(char)z] for an [int] z: the low eight bits. *)
Definition byte_of_Z (z : Z) : byte :=
  match Byte.of_N (Z.to_N (z mod 256)) with
  | Some b => b
  | None => x00
  end.

#[global] Instance byte_eq_dec : EqDecision byte := Byte.byte_eq_dec.

Definition MAX_TOKENS : Z := 100000.
Definition MAX_TOKEN_LENGTH : nat := 256.
Definition INT_MAX : Z := 2147483647.

(** ** Trie Index *)

#[local] Unset Elimination Schemes.
Inductive TrieNode : Type :=
  Node (value : Z) (children : byte -> option TrieNode).
#[local] Set Elimination Schemes.

Definition value (n : TrieNode) : Z := let (v, _) := n in v.
Definition children (n : TrieNode) : byte -> option TrieNode :=
  let (_, ch) := n in ch.

(** [calloc] clears the 256 child pointers; the value is set to [-1]. *)
Definition createTrieNode : TrieNode := Node (-1) (fun _ => None).

(** [node->children[c] = child] *)
Definition set_child (ch : byte -> option TrieNode) (c : byte) (child : TrieNode)
  : byte -> option TrieNode :=
  fun c' => if decide (c' = c) then Some child else ch c'.

(** The loop of [insertTrie] descends along [key], creating the missing
    children, and the final node gets [value].  The nodes are updated in
    place; here the updated subtree is rebuilt on the way back. *)
Fixpoint insertTrie (node : TrieNode) (key : list byte) (v : Z) {struct key}
  : TrieNode :=
  match key with
  | [] => Node v (children node)
  | c :: key' =>
      let child := match children node c with
                   | Some n => n
                   | None => createTrieNode
                   end in
      Node (value node) (set_child (children node) c (insertTrie child key' v))
  end.

(** The loop of [findLongest]: [data] is what remains of the buffer after
    [index] bytes, so [index < data_length] is [data <> []]. *)
Fixpoint findLongest_loop (node : TrieNode) (data : list byte)
    (index endIndex : nat) (v : Z) {struct data} : Z * nat :=
  match data with
  | [] => (v, endIndex)
  | c :: data' =>
      match children node c with
      | None => (v, endIndex)
      | Some child =>
          if decide (value child = -1)
          then findLongest_loop child data' (S index) endIndex v
          else findLongest_loop child data' (S index) (S index) (value child)
      end
  end.

(** [findLongest root data data_length &endIndex] returns the value and
    stores [endIndex]; here it returns both. *)
Definition findLongest (root : TrieNode) (data : list byte) : Z * nat :=
  findLongest_loop root data 0 0 (-1).

(** *** What a trie holds

    [walk] follows [key] from a node and [trie_value] reads the value found
    there: [-1] when the path leaves the trie or ends on a node with no
    value.  They are the observations the statements below are written
    with; the C code has no such function. *)

Fixpoint walk (node : TrieNode) (key : list byte) {struct key}
  : option TrieNode :=
  match key with
  | [] => Some node
  | c :: key' =>
      match children node c with
      | None => None
      | Some child => walk child key'
      end
  end.

Definition trie_value (node : TrieNode) (key : list byte) : Z :=
  match walk node key with
  | Some n => value n
  | None => -1
  end.

(** A sequence of insertions, oldest first, and the trie it builds. *)
Definition insertAll (root : TrieNode) (ins : list (list byte * Z)) : TrieNode :=
  foldl (fun t e => insertTrie t e.1 e.2) root ins.

(** The id given to [key] by its most recent insertion. *)
Definition latest (ins : list (list byte * Z)) (key : list byte) : option Z :=
  foldl (fun acc e => if decide (e.1 = key) then Some e.2 else acc) None ins.


(** ** Vocabulary literals *)

(** A C string: the bytes before the terminator, which is implicit at the
    end of the list.  Reading one byte past the terminator is out of bounds. *)
Abbreviation cstring := (list byte).

Definition bytes (s : string) : list byte := list_byte_of_string s.

Definition parse_hex (c : byte) : Z :=
  let z := Z_of_byte c in
  if decide (Z_of_byte "0" <= z <= Z_of_byte "9") then z - Z_of_byte "0"
  else if decide (Z_of_byte "a" <= z <= Z_of_byte "f") then z - Z_of_byte "a" + 10
  else if decide (Z_of_byte "A" <= z <= Z_of_byte "F") then z - Z_of_byte "A" + 10
  else -1.

Inductive parse_result : Type :=
| ParseOk (out : list byte)     (* returns [len]; [out] holds [len] bytes *)
| ParseError                    (* returns -1 *)
| ParseOutOfBounds.             (* reads past the terminator of the literal *)

Definition backslash : byte := x5c.
Definition single_quote : byte := x27.
Definition double_quote : byte := x22.

(** The [while] loop of [parse_python_literal].  [literal] is what remains of
    the string at the current position and [out] the bytes written so far,
    so [len] is [length out]. *)
Fixpoint parse_loop (quote : byte) (out_len : nat) (literal : cstring)
    (out : list byte) {struct literal} : parse_result :=
  match literal with
  | [] =>
      (* [*literal] is the terminator *)
      if decide (x00 = quote) then ParseOk out
      else if decide (length out < out_len)%nat
           then (* the terminator is copied, [literal++] leaves the string *)
                ParseOutOfBounds
           else ParseOk out
  | c :: rest =>
      if decide (c = quote) then ParseOk out
      else if decide (length out < out_len)%nat then
        if decide (c = backslash) then
          match rest with
          | [] => ParseError            (* [default:] on the terminator *)
          | e :: rest' =>
              if decide (e = "n"%byte) then parse_loop quote out_len rest' (out ++ [x0a])
              else if decide (e = "r"%byte) then parse_loop quote out_len rest' (out ++ [x0d])
              else if decide (e = "t"%byte) then parse_loop quote out_len rest' (out ++ [x09])
              else if decide (e = backslash) then parse_loop quote out_len rest' (out ++ [backslash])
              else if decide (e = single_quote) then parse_loop quote out_len rest' (out ++ [single_quote])
              else if decide (e = double_quote) then parse_loop quote out_len rest' (out ++ [double_quote])
              else if decide (e = "x"%byte) then
                match rest' with
                | [] => ParseOutOfBounds      (* [literal[2]] is past the terminator *)
                | [_] => ParseError           (* [literal[2]] is the terminator *)
                | h1 :: h2 :: rest'' =>
                    let hex1 := parse_hex h1 in
                    let hex2 := parse_hex h2 in
                    if decide (hex1 <> -1 /\ hex2 <> -1)
                    then parse_loop quote out_len rest''
                           (out ++ [byte_of_Z (Z.lor (Z.shiftl hex1 4) hex2)])
                    else ParseError
                end
              else ParseError
          end
        else parse_loop quote out_len rest (out ++ [c])
      else ParseOk out
  end.

Definition parse_python_literal (literal : cstring) (out_len : nat)
  : parse_result :=
  let literal :=
    match literal with
    | c :: rest => if decide (c = "b"%byte) then rest else literal
    | [] => literal
    end in
  match literal with
  | [] => ParseOutOfBounds   (* [quote] is the terminator, [literal++] leaves the string *)
  | quote :: rest => parse_loop quote out_len rest []
  end.

(** ** Token Table *)

(** [token2idx] is written by [addToken] and never read; it is left out. *)
Record Tokenizer : Type := mkTokenizer {
  root : TrieNode;
  idx2token : gmap Z (list byte);
  num_tokens : Z
}.

Definition createTokenizer : Tokenizer :=
  {| root := createTrieNode; idx2token := ∅; num_tokens := 0 |}.

(** What [addToken] does with the parsed [token] (its lines after the call
    of [parse_python_literal]).  [None] is undefined behaviour: a store
    outside [idx2token], or the overflow of [num_tokens]. *)
Definition addToken_store (tokenizer : Tokenizer) (token : list byte) (id : Z)
  : option Tokenizer :=
  if decide (0 <= id < MAX_TOKENS /\ num_tokens tokenizer < INT_MAX) then
    Some {| root := insertTrie (root tokenizer) token id;
            idx2token := <[id := token]> (idx2token tokenizer);
            num_tokens := num_tokens tokenizer + 1 |}
  else None.

Definition addToken (tokenizer : Tokenizer) (token_literal : cstring) (id : Z)
  : option Tokenizer :=
  match parse_python_literal token_literal MAX_TOKEN_LENGTH with
  | ParseOk token => addToken_store tokenizer token id
  | ParseError => Some tokenizer
  | ParseOutOfBounds => None
  end.

(** Loading a vocabulary: one [addToken] per entry, in order. *)
Fixpoint addTokens (tokenizer : Tokenizer) (entries : list (cstring * Z))
  : option Tokenizer :=
  match entries with
  | [] => Some tokenizer
  | (token_literal, id) :: entries' =>
      match addToken tokenizer token_literal id with
      | Some tokenizer' => addTokens tokenizer' entries'
      | None => None
      end
  end.

(** The same with entries that are already byte-strings. *)
Fixpoint storeTokens (tokenizer : Tokenizer) (vocab : list (list byte * Z))
  : option Tokenizer :=
  match vocab with
  | [] => Some tokenizer
  | (token, id) :: vocab' =>
      match addToken_store tokenizer token id with
      | Some tokenizer' => storeTokens tokenizer' vocab'
      | None => None
      end
  end.

(** The byte-strings a list of literals stands for: the entries [addToken]
    parses, each with what the parser returns for it. *)
Fixpoint parsed (entries : list (cstring * Z)) : list (list byte * Z) :=
  match entries with
  | [] => []
  | (token_literal, id) :: entries' =>
      match parse_python_literal token_literal MAX_TOKEN_LENGTH with
      | ParseOk token => (token, id) :: parsed entries'
      | _ => parsed entries'
      end
  end.

(** ** Encoder *)

Fixpoint strlen (s : cstring) : nat :=
  match s with
  | [] => 0
  | c :: s' => if decide (c = x00) then 0 else S (strlen s')
  end.

(** One iteration of the loop of [encode] at position [index]: the id that
    is stored in [encoded] and the next position. *)
Definition encode_step (root : TrieNode) (text : cstring) (length index : nat)
  : Z * nat :=
  let '(id, endIndex) :=
    findLongest root (take (length - index) (drop index text)) in
  if decide (endIndex = index \/ id = -1)
  then (Z_of_byte (default x00 (text !! index)), S index)
  else (id, (index + endIndex)%nat).

(** The loop of [encode]; it runs out of [fuel] when it needs more than
    [fuel] iterations. *)
Fixpoint encode_loop (fuel : nat) (root : TrieNode) (text : cstring)
    (length index : nat) (encoded : list Z) : option (list Z) :=
  if decide (index < length)%nat then
    match fuel with
    | O => None
    | S fuel' =>
        let '(id, index') := encode_step root text length index in
        encode_loop fuel' root text length index' (encoded ++ [id])
    end
  else Some encoded.

(** [encode tokenizer text &num_encoded]: the [num_encoded] ids written to
    [encoded].  The buffer has room for [length] ids. *)
Definition encode (tokenizer : Tokenizer) (text : cstring) : option (list Z) :=
  let length := strlen text in
  encode_loop length (root tokenizer) text length 0 [].

(** ** Decoder *)

Inductive decode_result (A : Type) : Type :=
| DecodeOk (a : A)
| UnknownTokenId (id : Z)        (* "Unknown token ID", returns NULL *)
| TableOutOfBounds (id : Z).     (* reads [idx2token[id]] past the array *)
Arguments DecodeOk {A} a.
Arguments UnknownTokenId {A} id.
Arguments TableOutOfBounds {A} id.

(** First loop of [decode]: the length of the output. *)
Fixpoint decode_total (tokenizer : Tokenizer) (tokens : list Z)
    (total_length : nat) : decode_result nat :=
  match tokens with
  | [] => DecodeOk total_length
  | id :: tokens' =>
      if decide (id < 256) then decode_total tokenizer tokens' (total_length + 1)
      else if decide (id < num_tokens tokenizer) then
        if decide (id < MAX_TOKENS) then
          match idx2token tokenizer !! id with
          | Some s => decode_total tokenizer tokens' (total_length + strlen s)
          | None => UnknownTokenId id
          end
        else TableOutOfBounds id
      else UnknownTokenId id
  end.

(** Second loop of [decode]: [decoded] is what has been written so far. *)
Fixpoint decode_fill (tokenizer : Tokenizer) (tokens : list Z)
    (decoded : list byte) : list byte :=
  match tokens with
  | [] => decoded
  | id :: tokens' =>
      if decide (id < 256)
      then decode_fill tokenizer tokens' (decoded ++ [byte_of_Z id])
      else if decide (id < num_tokens tokenizer /\ id < MAX_TOKENS) then
        match idx2token tokenizer !! id with
        | Some s => decode_fill tokenizer tokens' (decoded ++ take (strlen s) s)
        | None => decode_fill tokenizer tokens' decoded
        end
      else decode_fill tokenizer tokens' decoded
  end.

(** [decode tokenizer tokens num_tokens]: the bytes written to [decoded]
    before the final terminator. *)
Definition decode (tokenizer : Tokenizer) (tokens : list Z)
  : decode_result (list byte) :=
  match decode_total tokenizer tokens 0 with
  | DecodeOk _ => DecodeOk (decode_fill tokenizer tokens [])
  | UnknownTokenId id => UnknownTokenId id
  | TableOutOfBounds id => TableOutOfBounds id
  end.

(** A token of the vocabulary [ins], as the trie can return it: a byte-string
    of one byte or more, with the id of its most recent insertion. *)
Definition registered (ins : list (list byte * Z)) (token : list byte) (id : Z)
  : Prop :=
  token <> [] /\ latest ins token = Some id.

(** The byte-string stored under [id] by its most recent registration. *)
Definition latest_token (vocab : list (list byte * Z)) (id : Z)
  : option (list byte) :=
  foldl (fun acc e => if decide (e.2 = id) then Some e.1 else acc) None vocab.

(** What the second loop of [decode] writes for one id that the first loop
    has accepted. *)
Definition emission (tokenizer : Tokenizer) (id : Z) : list byte :=
  if decide (id < 256) then [byte_of_Z id]
  else match idx2token tokenizer !! id with
       | Some s => take (strlen s) s
       | None => []
       end.

(** The ids the first loop of [decode] accepts. *)
Definition accepted (tokenizer : Tokenizer) (id : Z) : Prop :=
  id < 256 \/
  (id < num_tokens tokenizer /\ id < MAX_TOKENS /\
   is_Some (idx2token tokenizer !! id)).

(** A vocabulary as section 3 of the specification wants it: the ids of its
    tokens are 256 or more, and an id stands for one token, so that a token
    the trie returns is the byte-string its id has in the table. *)
Definition valid_vocab (vocab : list (list byte * Z)) : Prop :=
  forall b v, registered vocab b v -> 256 <= v /\ latest_token vocab v = Some b.

(** The ids [encode] emits with a valid vocabulary: bytes, and ids of 256 or
    more that have an entry in the table. *)
Definition emitted (vocab : list (list byte * Z)) (id : Z) : Prop :=
  id < 256 \/ (256 <= id < MAX_TOKENS /\ is_Some (latest_token vocab id)).

(** The vocabulary of the scenario of the specification, and its tokenizer. *)
Definition sample_vocab : list (list byte * Z) :=
  [(bytes "the", 400); (bytes "there", 401)].

Definition sample_tokenizer : Tokenizer :=
  default createTokenizer (storeTokens createTokenizer sample_vocab).

Definition sample_entries : list (cstring * Z) :=
  [(bytes "'the'", 400); (bytes "'there'", 401)].

(** A vocabulary of 257 entries, with the ids 0 to 256; the last token has a
    NUL byte in it. *)
Definition nul_entries : list (cstring * Z) :=
  ((fun i => (bytes "'x'", Z.of_nat i)) <$> seq 0 256)
  ++ [(bytes "b'a\x00b'", 256)].

Definition nul_vocab : list (list byte * Z) :=
  ((fun i => (bytes "x", Z.of_nat i)) <$> seq 0 256)
  ++ [(["a"%byte; x00; "b"%byte], 256)].

Definition nul_tokenizer : Tokenizer :=
  default createTokenizer (storeTokens createTokenizer nul_vocab).

(** A vocabulary of one token of one byte. *)
Definition b_entries : list (cstring * Z) := [(bytes "'b'", 300)].
Definition b_vocab : list (list byte * Z) := [(bytes "b", 300)].

Definition b_tokenizer : Tokenizer :=
  default createTokenizer (storeTokens createTokenizer b_vocab).

(** The literal [literal] is closed and stands for the byte-string [token]:
    given room for more bytes than [token] has, the parser returns [token]. *)
Definition denotes (literal : cstring) (token : list byte) : Prop :=
  parse_python_literal literal (S (length token)) = ParseOk token.

(** A literal of 257 bytes between quotes. *)
Definition long_literal : cstring :=
  single_quote :: replicate 257 "a"%byte ++ [single_quote].

Definition long_tokenizer : Tokenizer :=
  default createTokenizer (addToken createTokenizer long_literal 300).

(** No literal of [entries] makes the parser read past its terminator. *)
Definition in_bounds (entries : list (cstring * Z)) : bool :=
  forallb (fun e => match parse_python_literal e.1 MAX_TOKEN_LENGTH with
                    | ParseOutOfBounds => false
                    | _ => true
                    end) entries.

(** The emission of the Decoder for one id as section 4.4 of the
    specification words it, to compare [decode] with: the id as a single raw
    byte below 256, and all the bytes of the registered byte-string
    otherwise. *)
Definition spec_emission (vocab : list (list byte * Z)) (id : Z) : list byte :=
  if decide (id < 256) then [byte_of_Z id]
  else default [] (latest_token vocab id).

(** A run of the loop of [encode] from a position: the ids of its
    iterations, in order, until the position is at the end of the text. *)
Inductive encode_run (root : TrieNode) (text : cstring) (length : nat)
  : nat -> list Z -> Prop :=
| run_end index :
    (length <= index)%nat -> encode_run root text length index []
| run_iteration index ids :
    (index < length)%nat ->
    encode_run root text length (encode_step root text length index).2 ids ->
    encode_run root text length index
      ((encode_step root text length index).1 :: ids).

(** ** Further definitions the properties are stated with *)

(** A piece of text and the id [encode] gives it: one byte with its own
    value, or a token of the vocabulary with the id of its latest
    registration. *)
Definition piece (vocab : list (list byte * Z)) (id : Z) (seg : list byte)
  : Prop :=
  (exists c, seg = [c] /\ id = Z_of_byte c) \/
  (seg <> [] /\ latest vocab seg = Some id).

(** A way to write a byte-string as a literal, after the [repr] of Python
    for [bytes]: the escapes the parser knows for line feed, carriage
    return, tab, backslash and the quote, the printable ASCII bytes as they
    are, and two hexadecimal digits after [\x] for the others. *)
Definition hex_digit (n : Z) : byte :=
  byte_of_Z (if decide (n < 10) then Z_of_byte "0" + n
             else Z_of_byte "a" + (n - 10)).

Definition repr_byte (c : byte) : list byte :=
  if decide (c = x0a) then [backslash; "n"%byte]
  else if decide (c = x0d) then [backslash; "r"%byte]
  else if decide (c = x09) then [backslash; "t"%byte]
  else if decide (c = backslash) then [backslash; backslash]
  else if decide (c = single_quote) then [backslash; single_quote]
  else if decide (32 <= Z_of_byte c < 127) then [c]
  else [backslash; "x"%byte;
        hex_digit (Z_of_byte c / 16); hex_digit (Z_of_byte c mod 16)].

Definition repr_literal (token : list byte) : cstring :=
  "b"%byte :: single_quote :: concat (repr_byte <$> token) ++ [single_quote].


(** In [main], what the lines before the call of [addToken] do to
    [token_str] when it starts with a quote: [memmove] shifts the string and
    its terminator one byte down, and the last byte of the shifted string is
    overwritten with NUL.  The result is the content of the memory that held
    the string, up to the place of its terminator; [None] when the string is
    the quote alone and the store goes to [token_str[-1]]. *)
Definition strip_quotes (token_str : cstring) : option cstring :=
  match token_str with
  | c :: rest =>
      if decide (c = single_quote \/ c = double_quote) then
        let n := strlen token_str in
        let moved := take (n - 1) rest ++ x00 :: drop n token_str in
        if decide (n - 1 = 0)%nat then None
        else Some (<[(n - 2)%nat := x00]> moved)
      else Some token_str
  | [] => Some token_str
  end.

(** * Properties *)

(** ** The trie *)

Section TrieFacts.

Implicit Types (node : TrieNode) (key data : list byte) (c : byte).

Lemma trie_value_nil node : trie_value node [] = value node.
Proof. reflexivity. Qed.

Lemma trie_value_cons node c key :
  trie_value node (c :: key) =
  match children node c with
  | Some child => trie_value child key
  | None => -1
  end.
Proof. unfold trie_value; simpl. by destruct (children node c). Qed.

Lemma trie_value_fresh key : trie_value createTrieNode key = -1.
Proof. by destruct key. Qed.

Lemma set_child_eq ch c child : set_child ch c child c = Some child.
Proof. unfold set_child. by rewrite decide_True. Qed.

Lemma set_child_ne ch c c' child : c' <> c -> set_child ch c child c' = ch c'.
Proof. intros. unfold set_child. by rewrite decide_False. Qed.

(** [insertTrie] changes the value of [key] and of no other byte-string. *)
Lemma trie_value_insert node key v key' :
  trie_value (insertTrie node key v) key' =
  if decide (key' = key) then v else trie_value node key'.
Proof.
  revert node key'. induction key as [|c key IH]; intros node key'.
  - by destruct key' as [|c' key']; case_decide.
  - destruct key' as [|c' key'].
    { by case_decide. }
    rewrite !trie_value_cons; cbn [insertTrie children value].
    destruct (decide (c' = c)) as [->|Hc].
    + rewrite set_child_eq, IH.
      repeat case_decide; try congruence.
      destruct (children node c); [done | apply trie_value_fresh].
    + rewrite set_child_ne by done. case_decide; congruence.
Qed.

Lemma latest_snoc ins key0 v key :
  latest (ins ++ [(key0, v)]) key =
  if decide (key0 = key) then Some v else latest ins key.
Proof. unfold latest. by rewrite foldl_app. Qed.

Lemma insertAll_snoc root ins key v :
  insertAll root (ins ++ [(key, v)]) = insertTrie (insertAll root ins) key v.
Proof. unfold insertAll. by rewrite foldl_app. Qed.

(** Last write wins: after a sequence of insertions a byte-string carries
    the id of its most recent insertion, and keeps the value it had in the
    starting trie when it was never inserted. *)
Lemma trie_value_insertAll root ins key :
  trie_value (insertAll root ins) key =
  default (trie_value root key) (latest ins key).
Proof.
  induction ins as [|[key0 v] ins IH] using rev_ind; [done|].
  rewrite insertAll_snoc, latest_snoc, trie_value_insert; simpl.
  destruct (decide (key = key0)) as [->|Hne].
  - by rewrite decide_True.
  - by rewrite decide_False by congruence.
Qed.

(** The result of the walk of [findLongest], in terms of the values the
    trie holds for the prefixes of [data]: either no prefix of one byte or
    more has a value and the accumulators come back unchanged, or the
    longest such prefix is returned with its value. *)
Lemma findLongest_loop_spec node data index endIndex v :
  (findLongest_loop node data index endIndex v = (v, endIndex) /\
   forall k, (0 < k <= length data)%nat -> trie_value node (take k data) = -1)
  \/
  (exists k, (0 < k <= length data)%nat /\
     findLongest_loop node data index endIndex v =
       (trie_value node (take k data), (index + k)%nat) /\
     trie_value node (take k data) <> -1 /\
     forall j, (k < j <= length data)%nat ->
               trie_value node (take j data) = -1).
Proof.
  revert node index endIndex v.
  induction data as [|c data IH]; intros node index endIndex v; simpl.
  { left. split; [done | intros k Hk; simpl in Hk; lia]. }
  destruct (children node c) as [child|] eqn:Hch.
  2:{ left. split; [done|]. intros [|k] Hk; [lia|].
      simpl. by rewrite trie_value_cons, Hch. }
  assert (Hstep : forall k, trie_value node (take (S k) (c :: data))
                            = trie_value child (take k data)).
  { intros k. simpl. by rewrite trie_value_cons, Hch. }
  destruct (decide (value child = -1)) as [Hv|Hv].
  - destruct (IH child (S index) endIndex v)
      as [[Hr Hnone] | (k & Hk & Hr & Hne & Hlong)].
    + left. split; [done|]. intros [|k] Hk; [lia|]. rewrite Hstep.
      destruct k as [|k]; [by rewrite take_0, trie_value_nil|].
      apply Hnone. simpl in Hk. lia.
    + right. exists (S k). rewrite Hstep. split; [simpl; lia|].
      split; [by rewrite Hr, Nat.add_succ_comm|]. split; [done|].
      intros [|j] Hj; [lia|]. rewrite Hstep. apply Hlong. simpl in Hj. lia.
  - destruct (IH child (S index) (S index) (value child))
      as [[Hr Hnone] | (k & Hk & Hr & Hne & Hlong)].
    + right. exists 1%nat. rewrite Hstep, take_0, trie_value_nil.
      split; [simpl; lia|]. split; [by rewrite Hr, Nat.add_1_r|].
      split; [done|].
      intros [|j] Hj; [lia|]. rewrite Hstep. apply Hnone. simpl in Hj. lia.
    + right. exists (S k). rewrite Hstep. split; [simpl; lia|].
      split; [by rewrite Hr, Nat.add_succ_comm|]. split; [done|].
      intros [|j] Hj; [lia|]. rewrite Hstep. apply Hlong. simpl in Hj. lia.
Qed.

Lemma findLongest_spec root data :
  (findLongest root data = (-1, 0%nat) /\
   forall k, (0 < k <= length data)%nat -> trie_value root (take k data) = -1)
  \/
  (exists k, (0 < k <= length data)%nat /\
     findLongest root data = (trie_value root (take k data), k) /\
     trie_value root (take k data) <> -1 /\
     forall j, (k < j <= length data)%nat ->
               trie_value root (take j data) = -1).
Proof. apply (findLongest_loop_spec root data 0 0 (-1)). Qed.

Lemma findLongest_bounds root data :
  ((findLongest root data).2 <= length data)%nat /\
  ((findLongest root data).1 = -1 <-> (findLongest root data).2 = 0%nat).
Proof.
  destruct (findLongest_spec root data)
    as [[-> _] | (k & Hk & -> & Hne & _)]; simpl.
  - split; [lia | done].
  - split; [lia|]. split; [done | lia].
Qed.

(** The value of the root is never read. *)
Lemma findLongest_root_value v v' ch data :
  findLongest (Node v ch) data = findLongest (Node v' ch) data.
Proof. by destruct data. Qed.

Lemma findLongest_children root root' data :
  children root = children root' ->
  findLongest root data = findLongest root' data.
Proof.
  destruct root as [v ch], root' as [v' ch']; simpl; intros ->.
  apply findLongest_root_value.
Qed.

Lemma latest_elem ins key v : latest ins key = Some v -> (key, v) ∈ ins.
Proof.
  induction ins as [|[key0 v0] ins IH] using rev_ind; [done|].
  rewrite latest_snoc, elem_of_app, list_elem_of_singleton; simpl.
  case_decide; [intros [= ->]; subst; by right | auto].
Qed.

Lemma latest_is_Some ins key v : (key, v) ∈ ins -> is_Some (latest ins key).
Proof.
  induction ins as [|[key0 v0] ins IH] using rev_ind.
  { by intros ?%elem_of_nil. }
  rewrite latest_snoc, elem_of_app, list_elem_of_singleton; simpl.
  case_decide; [by eauto|]. intros [?|[= -> ->]]; [auto | done].
Qed.

Lemma latest_not_sentinel ins key v :
  Forall (fun e => e.2 <> -1) ins -> latest ins key = Some v -> v <> -1.
Proof.
  intros Hall Hl%latest_elem.
  by apply (proj1 (Forall_forall _ _) Hall (key, v)).
Qed.

(** In a trie built from a new root a byte-string carries the id of its
    most recent insertion, and no value when it was never inserted. *)
Lemma trie_value_built ins key :
  trie_value (insertAll createTrieNode ins) key = default (-1) (latest ins key).
Proof. by rewrite trie_value_insertAll, trie_value_fresh. Qed.

(** So the byte-strings with a value are the inserted ones, when [-1] is
    never inserted as an id. *)
Lemma trie_value_built_None ins key :
  Forall (fun e => e.2 <> -1) ins ->
  trie_value (insertAll createTrieNode ins) key = -1 <-> latest ins key = None.
Proof.
  intros Hall. rewrite trie_value_built.
  destruct (latest ins key) as [v|] eqn:Hl; simpl; [|done].
  split; [|done]. intros ->. by apply latest_not_sentinel in Hl.
Qed.

Lemma prefix_take_length (b l : list byte) :
  b `prefix_of` l -> take (length b) l = b.
Proof. intros [k ->]. apply take_app_length. Qed.

End TrieFacts.

(** ** Longest match and last write *)

(** C9. After any sequence of insertions, a byte-string carries a single
    value in the trie: the id of its most recent insertion, or what the
    starting trie held for it (nothing, in a new trie) when it was never
    inserted.  And for a byte-string [b] of one byte or more whose most
    recent insertion gave it the id [v] (a token id, so not the [-1] the code
    keeps for "no value"), [findLongest] on exactly [b] returns [v] and the
    length of [b]. *)
Theorem last_write_wins (root : TrieNode) (ins : list (list byte * Z))
    (b : list byte) :
  trie_value (insertAll root ins) b = default (trie_value root b) (latest ins b)
  /\ trie_value (insertAll createTrieNode ins) b = default (-1) (latest ins b)
  /\ forall v, b <> [] -> latest ins b = Some v -> v <> -1 ->
       findLongest (insertAll root ins) b = (v, length b).
Proof.
  split; [apply trie_value_insertAll|]. split; [apply trie_value_built|].
  intros v Hb Hlatest Hv.
  assert (Hval : trie_value (insertAll root ins) b = v)
    by (by rewrite trie_value_insertAll, Hlatest).
  assert (Hlen : (0 < length b)%nat) by (destruct b; [done | simpl; lia]).
  destruct (findLongest_spec (insertAll root ins) b)
    as [[_ Hnone] | (k & Hk & Hr & _ & Hlong)].
  - specialize (Hnone (length b)). rewrite firstn_all in Hnone.
    rewrite Hnone in Hval by lia. congruence.
  - destruct (decide (k = length b)) as [->|Hne].
    + rewrite firstn_all in Hr. by rewrite Hr, Hval.
    + specialize (Hlong (length b)). rewrite firstn_all in Hlong.
      rewrite Hlong in Hval by lia. congruence.
Qed.

Lemma last_write_wins_witness :
  findLongest
    (insertAll createTrieNode
       [(bytes "ab", 300); (bytes "a", 301); (bytes "ab", 302)])
    (bytes "ab") = (302, 2%nat).
Proof.
  apply (proj2 (proj2 (last_write_wins createTrieNode
           [(bytes "ab", 300); (bytes "a", 301); (bytes "ab", 302)]
           (bytes "ab"))) 302).
  - discriminate.
  - reflexivity.
  - discriminate.
Defined.

(** C4. For a trie built by a sequence of insertions of token ids (none of
    them the [-1] of "no value"), and for the data that starts at [offset]
    in a buffer, [findLongest] returns the id and the length of the longest
    registered token that is a prefix of that data, whatever was seen before
    or after it on the way down; and it returns no match, [-1] with
    [endIndex = 0], exactly when no node below the root on the walked path
    has a value, that is when no registered token is a prefix of the data. *)
Theorem findLongest_longest_registered (ins : list (list byte * Z))
    (buffer : list byte) (offset : nat) :
  Forall (fun e => e.2 <> -1) ins ->
  let root := insertAll createTrieNode ins in
  let data := drop offset buffer in
  ((exists b v,
       registered ins b v /\ b `prefix_of` data /\
       findLongest root data = (v, length b) /\
       forall b' v', registered ins b' v' -> b' `prefix_of` data ->
                     (length b' <= length b)%nat)
   \/
   (findLongest root data = (-1, 0%nat) /\
    forall b' v', registered ins b' v' -> ~ b' `prefix_of` data))
  /\
  (findLongest root data = (-1, 0%nat) <->
   forall k, (0 < k <= length data)%nat -> trie_value root (take k data) = -1).
Proof.
  intros Hall root data.
  assert (Hreg : forall b' v', registered ins b' v' -> b' `prefix_of` data ->
            (0 < length b' <= length data)%nat /\
            trie_value root (take (length b') data) <> -1).
  { intros b' v' [Hne Hl] Hp. split.
    - split; [destruct b'; [done | simpl; lia] | by apply prefix_length].
    - rewrite (prefix_take_length _ _ Hp). subst root.
      rewrite trie_value_built, Hl. simpl.
      by apply (latest_not_sentinel ins b'). }
  destruct (findLongest_spec root data)
    as [[Hr Hnone] | (k & Hk & Hr & Hne & Hlong)].
  - split; [right; split; [done|] | done].
    intros b' v' Hb' Hp. destruct (Hreg _ _ Hb' Hp) as [Hlen Hval].
    by apply Hval, Hnone.
  - split.
    + left. exists (take k data), (trie_value root (take k data)).
      assert (Hlen : length (take k data) = k) by (rewrite length_take; lia).
      split; [split|].
      * intros Hnil. rewrite Hnil in Hlen. simpl in Hlen. lia.
      * subst root. rewrite trie_value_built in Hne |- *.
        by destruct (latest ins (take k data)).
      * split; [apply prefix_take|]. rewrite Hlen. split; [done|].
        intros b' v' Hb' Hp. destruct (Hreg _ _ Hb' Hp) as [Hlen' Hval].
        destruct (decide (length b' <= k)%nat) as [|Hgt]; [done|].
        exfalso. apply Hval, Hlong. lia.
    + rewrite Hr. split.
      * intros [= Hv _]. congruence.
      * intros Hnone. exfalso. by apply Hne, Hnone.
Qed.

Lemma findLongest_longest_registered_witness :
  findLongest
    (insertAll createTrieNode [(bytes "the", 400); (bytes "there", 401)])
    (drop 2 (bytes "__they")) = (-1, 0%nat) <->
  forall k, (0 < k <= length (drop 2 (bytes "__they")))%nat ->
    trie_value
      (insertAll createTrieNode [(bytes "the", 400); (bytes "there", 401)])
      (take k (drop 2 (bytes "__they"))) = -1.
Proof.
  apply (findLongest_longest_registered
           [(bytes "the", 400); (bytes "there", 401)] (bytes "__they") 2).
  repeat constructor; discriminate.
Defined.

(** ** The encoder *)

Section EncodeFacts.

Implicit Types (root : TrieNode) (text : cstring) (encoded : list Z).

Lemma strlen_le text : (strlen text <= length text)%nat.
Proof. induction text as [|c text IH]; simpl; [lia | case_decide; lia]. Qed.

Lemma strlen_no_nul text : x00 ∉ text -> strlen text = length text.
Proof.
  induction text as [|c text IH]; [done|].
  rewrite not_elem_of_cons. intros [Hc Ht]; simpl.
  rewrite decide_False by done. by rewrite IH.
Qed.

Lemma take_strlen_no_nul text : x00 ∉ take (strlen text) text.
Proof.
  induction text as [|c text IH]; simpl; [apply not_elem_of_nil|].
  case_decide; simpl; [apply not_elem_of_nil|].
  rewrite not_elem_of_cons. by split.
Qed.

(** An iteration moves forward, and stays inside the text. *)
Lemma encode_step_advance root text length index :
  (index < length)%nat ->
  (index < (encode_step root text length index).2 <= length)%nat.
Proof.
  intros Hlt. unfold encode_step.
  pose proof (findLongest_bounds root (take (length - index) (drop index text)))
    as [Hle Hzero].
  rewrite length_take in Hle.
  destruct (findLongest root _) as [id endIndex]; simpl in *.
  case_decide as Hc; simpl; [lia|].
  assert (endIndex <> 0%nat) by (intros ?; apply Hc; right; by apply Hzero).
  lia.
Qed.

Lemma encode_loop_unfold fuel root text length index encoded :
  (index < length)%nat ->
  encode_loop (S fuel) root text length index encoded =
  encode_loop fuel root text length
    (encode_step root text length index).2
    (encoded ++ [(encode_step root text length index).1]).
Proof.
  intros Hlt. simpl. rewrite decide_True by done.
  by destruct (encode_step root text length index).
Qed.

Lemma encode_loop_done fuel root text length index encoded :
  (length <= index)%nat ->
  encode_loop fuel root text length index encoded = Some encoded.
Proof. intros Hge. destruct fuel; simpl; by rewrite decide_False by lia. Qed.

(** The loop ends within [length - index] iterations, and each one appends
    one id. *)
Lemma encode_loop_total fuel root text length index encoded :
  (length - index <= fuel)%nat ->
  exists out,
    encode_loop fuel root text length index encoded = Some (encoded ++ out) /\
    (List.length out <= length - index)%nat.
Proof.
  revert index encoded.
  induction fuel as [|fuel IH]; intros index encoded Hfuel.
  { exists []. rewrite app_nil_r, encode_loop_done by lia. simpl. split; [done | lia]. }
  destruct (decide (index < length)%nat) as [Hlt|Hge].
  2:{ exists []. rewrite app_nil_r, encode_loop_done by lia. simpl. split; [done | lia]. }
  rewrite encode_loop_unfold by done.
  pose proof (encode_step_advance root text length index Hlt) as Hadv.
  destruct (encode_step root text length index) as [id index']; simpl in *.
  destruct (IH index' (encoded ++ [id])) as (out & Hout & Hlen); [lia|].
  exists (id :: out). rewrite Hout, <- app_assoc. simpl. split; [done | lia].
Qed.

Lemma encode_loop_more_fuel fuel fuel' root text length index encoded out :
  (fuel <= fuel')%nat ->
  encode_loop fuel root text length index encoded = Some out ->
  encode_loop fuel' root text length index encoded = Some out.
Proof.
  revert fuel' index encoded.
  induction fuel as [|fuel IH]; intros fuel' index encoded Hle.
  - simpl. case_decide; [done|]. intros [= <-]. apply encode_loop_done. lia.
  - destruct fuel' as [|fuel']; [lia|].
    destruct (decide (index < length)%nat) as [Hlt|Hge].
    + rewrite !encode_loop_unfold by done. apply IH. lia.
    + rewrite !encode_loop_done by lia. done.
Qed.

(** The encoder reads the children of the root and nothing else of it. *)
Lemma encode_step_children root root' text length index :
  children root = children root' ->
  encode_step root text length index = encode_step root' text length index.
Proof. intros Hch. unfold encode_step. by rewrite (findLongest_children _ _ _ Hch). Qed.

Lemma encode_loop_children fuel root root' text length index encoded :
  children root = children root' ->
  encode_loop fuel root text length index encoded =
  encode_loop fuel root' text length index encoded.
Proof.
  intros Hch. revert index encoded.
  induction fuel as [|fuel IH]; intros index encoded; simpl; [done|].
  rewrite (encode_step_children _ _ _ _ _ Hch).
  case_decide; [|done]. destruct (encode_step root' text length index). apply IH.
Qed.

Lemma insertTrie_children root root' key v :
  children root = children root' ->
  children (insertTrie root key v) = children (insertTrie root' key v).
Proof. intros Hch. destruct key; simpl; by rewrite Hch. Qed.

Lemma insertAll_children root root' ins :
  children root = children root' ->
  children (insertAll root ins) = children (insertAll root' ins).
Proof.
  intros Hch. induction ins as [|[key v] ins IH] using rev_ind; [done|].
  rewrite !insertAll_snoc. by apply insertTrie_children.
Qed.

Lemma insertAll_app root ins1 ins2 :
  insertAll root (ins1 ++ ins2) = insertAll (insertAll root ins1) ins2.
Proof. unfold insertAll. apply foldl_app. Qed.

End EncodeFacts.

(** ** Loading a vocabulary *)

Section LoadFacts.

Implicit Types (tok : Tokenizer) (vocab : list (list byte * Z)).

Lemma addToken_store_inv tok token id tok' :
  addToken_store tok token id = Some tok' ->
  (0 <= id < MAX_TOKENS) /\
  root tok' = insertTrie (root tok) token id /\
  idx2token tok' = <[id := token]> (idx2token tok) /\
  num_tokens tok' = num_tokens tok + 1.
Proof. unfold addToken_store. case_decide; [|done]. intros [= <-]. tauto. Qed.

Lemma latest_token_snoc vocab token v id :
  latest_token (vocab ++ [(token, v)]) id =
  if decide (v = id) then Some token else latest_token vocab id.
Proof. unfold latest_token. by rewrite foldl_app. Qed.

Lemma latest_token_cons vocab token v id :
  latest_token ((token, v) :: vocab) id =
  match latest_token vocab id with
  | Some s => Some s
  | None => if decide (v = id) then Some token else None
  end.
Proof.
  induction vocab as [|[token0 v0] vocab IH] using rev_ind; [done|].
  rewrite app_comm_cons, !latest_token_snoc, IH.
  by destruct (decide (v0 = id)).
Qed.

Lemma latest_cons ins key0 v key :
  latest ((key0, v) :: ins) key =
  match latest ins key with
  | Some x => Some x
  | None => if decide (key0 = key) then Some v else None
  end.
Proof.
  induction ins as [|[key1 v1] ins IH] using rev_ind; [done|].
  rewrite app_comm_cons, !latest_snoc, IH.
  by destruct (decide (key1 = key)).
Qed.

Lemma latest_token_elem vocab id s :
  latest_token vocab id = Some s -> (s, id) ∈ vocab.
Proof.
  induction vocab as [|[token0 v0] vocab IH] using rev_ind; [done|].
  rewrite latest_token_snoc, elem_of_app, list_elem_of_singleton; simpl.
  case_decide; [intros [= ->]; subst; by right | auto].
Qed.

(** What a successful load leaves in the tokenizer. *)
Lemma storeTokens_inv tok vocab tok' :
  storeTokens tok vocab = Some tok' ->
  root tok' = insertAll (root tok) vocab /\
  num_tokens tok' = num_tokens tok + Z.of_nat (length vocab) /\
  Forall (fun e => 0 <= e.2 < MAX_TOKENS) vocab /\
  forall id, idx2token tok' !! id =
             match latest_token vocab id with
             | Some s => Some s
             | None => idx2token tok !! id
             end.
Proof.
  revert tok. induction vocab as [|[token v] vocab IH]; intros tok; simpl.
  { intros [= <-]. split; [done|]. split; [lia|]. by split. }
  destruct (addToken_store tok token v) as [tok1|] eqn:Hadd; [|done].
  apply addToken_store_inv in Hadd as (Hid & Hroot & Htab & Hnum).
  intros (Hr & Hn & Hall & Hlook)%IH.
  split; [by rewrite Hr, Hroot|]. split; [lia|].
  split; [by constructor|].
  intros id. rewrite Hlook, latest_token_cons, Htab.
  destruct (latest_token vocab id); [done|].
  rewrite lookup_insert. by repeat case_decide.
Qed.

(** The same for a load into the new tokenizer: the table holds, for each id,
    the byte-string of its most recent registration. *)
Lemma loaded_inv vocab tok :
  storeTokens createTokenizer vocab = Some tok ->
  root tok = insertAll createTrieNode vocab /\
  num_tokens tok = Z.of_nat (length vocab) /\
  Forall (fun e => 0 <= e.2 < MAX_TOKENS) vocab /\
  forall id, idx2token tok !! id = latest_token vocab id.
Proof.
  intros (Hr & Hn & Hall & Htab)%storeTokens_inv. simpl in *.
  split; [done|]. split; [lia|]. split; [done|].
  intros id. rewrite Htab, lookup_empty. by destruct (latest_token vocab id).
Qed.

(** A load that is defined returns the tokenizer it computes. *)
Lemma addTokens_defined tok entries :
  (if addTokens tok entries is Some _ then True else False) ->
  addTokens tok entries = Some (default createTokenizer (addTokens tok entries)).
Proof. by destruct (addTokens tok entries). Qed.

Lemma storeTokens_defined tok vocab :
  (if storeTokens tok vocab is Some _ then True else False) ->
  storeTokens tok vocab = Some (default createTokenizer (storeTokens tok vocab)).
Proof. by destruct (storeTokens tok vocab). Qed.

Lemma storeTokens_app tok vocab1 vocab2 :
  storeTokens tok (vocab1 ++ vocab2) =
  match storeTokens tok vocab1 with
  | Some tok1 => storeTokens tok1 vocab2
  | None => None
  end.
Proof.
  revert tok. induction vocab1 as [|[token v] vocab1 IH]; intros tok; simpl.
  - done.
  - destruct (addToken_store tok token v); [apply IH | done].
Qed.

(** Loading literals is loading the byte-strings they parse to. *)
Lemma addTokens_storeTokens tok entries tok' :
  addTokens tok entries = Some tok' ->
  storeTokens tok (parsed entries) = Some tok'.
Proof.
  revert tok. induction entries as [|[lit id] entries IH]; intros tok; simpl.
  { done. }
  unfold addToken.
  destruct (parse_python_literal lit MAX_TOKEN_LENGTH) as [token| |]; simpl.
  - destruct (addToken_store tok token id); [apply IH | done].
  - apply IH.
  - done.
Qed.

Lemma addTokens_in_bounds tok entries :
  in_bounds entries = true ->
  addTokens tok entries = storeTokens tok (parsed entries).
Proof.
  revert tok. induction entries as [|[lit id] entries IH]; intros tok; simpl.
  { done. }
  unfold addToken.
  destruct (parse_python_literal lit MAX_TOKEN_LENGTH) as [token| |]; simpl.
  - intros Hb. destruct (addToken_store tok token id); [by apply IH | done].
  - apply IH.
  - done.
Qed.

(** The vocabularies of the examples load. *)
Lemma sample_loaded :
  addTokens createTokenizer sample_entries = Some sample_tokenizer.
Proof. by rewrite addTokens_in_bounds. Qed.

Lemma b_loaded : addTokens createTokenizer b_entries = Some b_tokenizer.
Proof. by rewrite addTokens_in_bounds. Qed.

Lemma nul_parsed : parsed nul_entries = nul_vocab.
Proof. vm_compute. reflexivity. Qed.

Lemma nul_stored : storeTokens createTokenizer nul_vocab = Some nul_tokenizer.
Proof. apply storeTokens_defined. vm_compute. exact I. Qed.

Lemma nul_loaded : addTokens createTokenizer nul_entries = Some nul_tokenizer.
Proof.
  rewrite addTokens_in_bounds by (vm_compute; reflexivity).
  rewrite nul_parsed. apply nul_stored.
Qed.

End LoadFacts.

(** ** Totality of the encoder *)

(** The loop, with fuel for it, appends the ids of the iterations it runs
    from [index] to the end of the text, one id per iteration. *)
Lemma encode_loop_run fuel (root : TrieNode) (text : cstring)
    (length index : nat) (encoded : list Z) :
  (length - index <= fuel)%nat ->
  exists out,
    encode_loop fuel root text length index encoded = Some (encoded ++ out) /\
    encode_run root text length index out /\
    (List.length out <= length - index)%nat /\
    ((index < length)%nat -> (0 < List.length out)%nat).
Proof.
  revert index encoded.
  induction fuel as [|fuel IH]; intros index encoded Hfuel.
  { exists []. rewrite app_nil_r, encode_loop_done by lia.
    split; [done|]. split; [constructor; lia|]. simpl. split; lia. }
  destruct (decide (index < length)%nat) as [Hlt|Hge].
  2:{ exists []. rewrite app_nil_r, encode_loop_done by lia.
      split; [done|]. split; [constructor; lia|]. simpl. split; lia. }
  rewrite encode_loop_unfold by done.
  pose proof (encode_step_advance root text length index Hlt) as Hadv.
  destruct (IH (encode_step root text length index).2
              (encoded ++ [(encode_step root text length index).1]))
    as (out & Hout & Hrun & Hlen & _); [lia|].
  exists ((encode_step root text length index).1 :: out).
  rewrite Hout, <- app_assoc.
  split; [done|]. split; [by constructor|]. simpl. split; lia.
Qed.

(** The ids of a run are determined by the position it starts from. *)
Lemma encode_run_unique (root : TrieNode) (text : cstring) (length index : nat)
    (ids1 ids2 : list Z) :
  encode_run root text length index ids1 ->
  encode_run root text length index ids2 ->
  ids1 = ids2.
Proof.
  intros Hrun1. revert ids2.
  induction Hrun1 as [index Hge|index ids1 Hlt _ IH]; intros ids2 Hrun2.
  - inversion Hrun2; [done | lia].
  - inversion Hrun2 as [|? ids2' ? Hrun2']; subst; [lia|].
    f_equal. by apply IH.
Qed.

(** C8. [encode] is total.  Whatever the tokenizer and the text, an
    iteration of its loop at a position inside the text moves to a later
    position, not past the end, and appends one id to the ids it has, and
    the loop returns the ids it has once the position is at the end of the
    text.  So the loop ends within [strlen text] iterations and [encode]
    returns, never failing; what it returns is the ids of the iterations
    from position 0 to the end of the text, one id per iteration, in
    order: at most one id per byte of the text, and one id at least when
    the text is not empty.  The empty text gives no id. *)
Theorem encode_total (tokenizer : Tokenizer) (text : cstring) :
  (forall index, (index < strlen text)%nat ->
     (index < (encode_step (root tokenizer) text (strlen text) index).2
      <= strlen text)%nat) /\
  (forall fuel index encoded, (index < strlen text)%nat ->
     encode_loop (S fuel) (root tokenizer) text (strlen text) index encoded =
     encode_loop fuel (root tokenizer) text (strlen text)
       (encode_step (root tokenizer) text (strlen text) index).2
       (encoded ++ [(encode_step (root tokenizer) text (strlen text) index).1])) /\
  (forall fuel index encoded, (strlen text <= index)%nat ->
     encode_loop fuel (root tokenizer) text (strlen text) index encoded
     = Some encoded) /\
  (exists encoded,
     encode tokenizer text = Some encoded /\
     encode_run (root tokenizer) text (strlen text) 0 encoded /\
     (forall ids, encode_run (root tokenizer) text (strlen text) 0 ids ->
                  ids = encoded) /\
     (length encoded <= strlen text <= length text)%nat /\
     ((0 < strlen text)%nat -> (0 < length encoded)%nat) /\
     (forall fuel, (strlen text <= fuel)%nat ->
        encode_loop fuel (root tokenizer) text (strlen text) 0 [] = Some encoded) /\
     (forall fuel index prefix, (strlen text - index <= fuel)%nat ->
        exists out,
          encode_run (root tokenizer) text (strlen text) index out /\
          encode_loop fuel (root tokenizer) text (strlen text) index prefix
          = Some (prefix ++ out))) /\
  encode tokenizer [] = Some [].
Proof.
  split; [intros index; apply encode_step_advance|].
  split; [intros fuel index encoded; apply encode_loop_unfold|].
  split; [intros fuel index encoded; apply encode_loop_done|].
  split; [|done].
  destruct (encode_loop_run (strlen text) (root tokenizer) text (strlen text) 0 [])
    as (out & Hout & Hrun & Hlen & Hpos); [lia|].
  simpl in Hout. exists out. split; [done|]. split; [done|].
  split; [intros ids Hids; by apply (encode_run_unique _ _ _ _ _ _ Hids)|].
  split; [pose proof (strlen_le text); lia|].
  split; [done|].
  split; [intros fuel Hfuel; by apply (encode_loop_more_fuel (strlen text))|].
  intros fuel index prefix Hfuel.
  destruct (encode_loop_run fuel (root tokenizer) text (strlen text) index prefix)
    as (out' & Hout' & Hrun' & _); [lia|].
  by exists out'.
Qed.

Lemma encode_total_witness :
  (1 < strlen (bytes "_there"))%nat /\
  (1 < (encode_step (root sample_tokenizer) (bytes "_there")
          (strlen (bytes "_there")) 1).2 <= strlen (bytes "_there"))%nat.
Proof.
  split; [vm_compute; lia|].
  apply (proj1 (encode_total sample_tokenizer (bytes "_there")) 1%nat).
  vm_compute; lia.
Defined.

(** ** The empty byte-string *)

(** C10. [findLongest] never reports a match of zero bytes: what it returns
    with [endIndex = 0] is [-1], and an id other than [-1] comes with
    [endIndex > 0].  The value of the root is not read, so two tries that
    differ by it give the same result.  Registering the empty byte-string
    (the literal [b''] parses to it) only sets the value of the root, and
    [encode] gives the same output with and without that registration,
    whether it is the last one or is followed by others. *)
Theorem empty_token_is_ignored :
  (forall root data,
     ((findLongest root data).2 = 0%nat -> (findLongest root data).1 = -1) /\
     ((findLongest root data).1 <> -1 -> (0 < (findLongest root data).2)%nat)) /\
  (forall v v' ch data,
     findLongest (Node v ch) data = findLongest (Node v' ch) data) /\
  (forall tokenizer id,
     addToken tokenizer (bytes "b''") id = addToken_store tokenizer [] id) /\
  (forall tokenizer id tokenizer' text,
     addToken_store tokenizer [] id = Some tokenizer' ->
     root tokenizer' = Node id (children (root tokenizer)) /\
     encode tokenizer' text = encode tokenizer text) /\
  (forall tokenizer vocab1 vocab2 id tokenizer1 tokenizer2 text,
     storeTokens tokenizer (vocab1 ++ ([], id) :: vocab2) = Some tokenizer1 ->
     storeTokens tokenizer (vocab1 ++ vocab2) = Some tokenizer2 ->
     encode tokenizer1 text = encode tokenizer2 text).
Proof.
  split; [|split; [|split; [|split]]].
  - intros root data. pose proof (findLongest_bounds root data) as [_ Hz].
    split; [apply Hz|]. intros Hne. destruct (findLongest root data).2; [|lia].
    by destruct Hne; apply Hz.
  - apply findLongest_root_value.
  - done.
  - intros tokenizer id tokenizer' text (_ & Hroot & _)%addToken_store_inv.
    split; [done|]. unfold encode. apply encode_loop_children.
    by rewrite Hroot.
  - intros tokenizer vocab1 vocab2 id tokenizer1 tokenizer2 text H1 H2.
    apply storeTokens_inv in H1 as (Hr1 & _), H2 as (Hr2 & _).
    unfold encode. apply encode_loop_children.
    rewrite Hr1, Hr2, !insertAll_app.
    by apply (insertAll_children (insertTrie _ [] id) _ vocab2).
Qed.

Lemma empty_token_is_ignored_witness :
  encode
    (default createTokenizer (addToken_store sample_tokenizer [] 500))
    (bytes "the") =
  encode sample_tokenizer (bytes "the").
Proof.
  apply (proj1 (proj2 (proj2 (proj2 empty_token_is_ignored))) sample_tokenizer 500).
  reflexivity.
Defined.

(** ** Fallback *)

Section Fallback.

Variables (root : TrieNode) (text : cstring) (length : nat).
Hypothesis no_match : forall index, (index < length)%nat ->
  findLongest root (take (length - index) (drop index text)) = (-1, 0%nat).
Hypothesis in_text : (length <= List.length text)%nat.

(** When no position has a match, the loop copies the bytes. *)
Lemma encode_loop_fallback fuel index encoded :
  (length - index <= fuel)%nat ->
  encode_loop fuel root text length index encoded =
  Some (encoded ++ (Z_of_byte <$> take (length - index) (drop index text))).
Proof.
  revert index encoded.
  induction fuel as [|fuel IH]; intros index encoded Hfuel.
  { rewrite encode_loop_done by lia.
    replace (length - index)%nat with 0%nat by lia.
    by rewrite take_0, app_nil_r. }
  destruct (decide (index < length)%nat) as [Hlt|Hge].
  2:{ rewrite encode_loop_done by lia.
      replace (length - index)%nat with 0%nat by lia.
      by rewrite take_0, app_nil_r. }
  rewrite encode_loop_unfold by done. unfold encode_step.
  rewrite (no_match index Hlt). rewrite decide_True by (by right). simpl.
  rewrite IH by lia.
  destruct (lookup_lt_is_Some_2 text index) as [c Hc]; [lia|].
  rewrite Hc, (drop_S _ _ _ Hc). simpl.
  replace (length - index)%nat with (S (length - S index)) by lia.
  by rewrite <- app_assoc.
Qed.

End Fallback.

(** Counterexample to C7 as stated, on a text with a NUL byte in it.  The
    vocabulary is empty, so no registered token is a prefix of the text at
    any position, and [encode] returns the value of the first byte only:
    [strlen] ends the text at the NUL byte. *)
Lemma fallback_stops_at_nul :
  storeTokens createTokenizer [] = Some createTokenizer /\
  (forall b v i, (b, v) ∈ @nil (list byte * Z) -> b <> [] ->
                 ~ b `prefix_of` drop i ["a"%byte; x00; "b"%byte]) /\
  encode createTokenizer ["a"%byte; x00; "b"%byte] = Some [97] /\
  encode createTokenizer ["a"%byte; x00; "b"%byte]
  <> Some (Z_of_byte <$> ["a"%byte; x00; "b"%byte]).
Proof.
  split; [reflexivity|].
  split; [by intros b v i ?%elem_of_nil|].
  split; [reflexivity|].
  vm_compute. discriminate.
Qed.

(** C7, amended.  When no token of the vocabulary is a prefix of the text
    at any position, [encode] returns the bytes of the text up to its first
    NUL byte, each as its own id: all the bytes of the text when it has no
    NUL byte. *)
Theorem encode_fallback_purity (vocab : list (list byte * Z))
    (tokenizer : Tokenizer) (t : cstring) :
  storeTokens createTokenizer vocab = Some tokenizer ->
  (forall b v i, (b, v) ∈ vocab -> b <> [] -> ~ b `prefix_of` drop i t) ->
  encode tokenizer t = Some (Z_of_byte <$> take (strlen t) t) /\
  (x00 ∉ t -> encode tokenizer t = Some (Z_of_byte <$> t)).
Proof.
  intros (Hroot & _)%storeTokens_inv Hnone.
  assert (Henc : encode tokenizer t = Some (Z_of_byte <$> take (strlen t) t)).
  { unfold encode.
    rewrite encode_loop_fallback;
      [by rewrite Nat.sub_0_r, drop_0| |apply strlen_le|lia].
    intros index Hlt.
    destruct (findLongest_spec (root tokenizer)
                (take (strlen t - index) (drop index t)))
      as [[Hr _] | (k & Hk & _ & Hne & _)]; [done|].
    exfalso. rewrite Hroot in Hne. simpl in Hne.
    rewrite trie_value_built in Hne.
    destruct (latest vocab _) as [v|] eqn:Hl; [|done].
    apply latest_elem in Hl. apply (Hnone _ v index Hl).
    - intros Hnil%(f_equal List.length). rewrite length_take in Hnil.
      simpl in Hnil. lia.
    - etrans; apply prefix_take. }
  split; [done|].
  intros Hnul. by rewrite Henc, (strlen_no_nul _ Hnul), firstn_all.
Qed.

Lemma encode_fallback_purity_witness :
  encode sample_tokenizer (bytes "a r" ++ x00 :: bytes "e")
  = Some [97; 32; 114].
Proof.
  apply (encode_fallback_purity sample_vocab sample_tokenizer
           (bytes "a r" ++ x00 :: bytes "e")).
  - reflexivity.
  - intros b v i Hin _ [k Hk].
    apply list_elem_of_In in Hin.
    destruct Hin as [[= <- <-] | [[= <- <-] | []]];
      do 5 (destruct i as [|i]; [cbv in Hk; discriminate|]);
      destruct i; cbv in Hk; discriminate.
Defined.

(** ** The decoder *)

Section DecodeFacts.

Variable tokenizer : Tokenizer.
Implicit Types (tokens : list Z) (decoded : list byte).

Lemma byte_of_Z_of_byte (c : byte) : byte_of_Z (Z_of_byte c) = c.
Proof.
  unfold byte_of_Z, Z_of_byte.
  pose proof (Byte.to_N_bounded c) as Hb.
  rewrite Z.mod_small by lia.
  by rewrite N2Z.id, Byte.of_to_N.
Qed.

Lemma Z_of_byte_range (c : byte) : 0 <= Z_of_byte c < 256.
Proof. unfold Z_of_byte. pose proof (Byte.to_N_bounded c). lia. Qed.

Lemma Z_of_byte_of_Z (z : Z) : Z_of_byte (byte_of_Z z) = z mod 256.
Proof.
  unfold byte_of_Z, Z_of_byte.
  pose proof (Z.mod_pos_bound z 256 ltac:(lia)) as Hm.
  destruct (Byte.of_N (Z.to_N (z mod 256))) as [b|] eqn:Hb.
  - apply Byte.to_of_N in Hb. rewrite Hb. lia.
  - apply Byte.of_N_None_iff in Hb. lia.
Qed.

(** The first loop fails on the first id that is not accepted, and with the
    error of that id. *)
Lemma decode_total_ok tokens total :
  Forall (accepted tokenizer) tokens ->
  exists total', decode_total tokenizer tokens total = DecodeOk total'.
Proof.
  intros Hall. revert total.
  induction Hall as [|id tokens Hid _ IH]; intros total; simpl; [by eauto|].
  case_decide; [apply IH|].
  destruct Hid as [?|(Hn & Hm & [s Hs])]; [lia|].
  rewrite !decide_True by done. rewrite Hs. apply IH.
Qed.

Lemma decode_total_accepts tokens total total' :
  decode_total tokenizer tokens total = DecodeOk total' ->
  Forall (accepted tokenizer) tokens.
Proof.
  revert total. induction tokens as [|id tokens IH]; intros total; simpl.
  { by constructor. }
  case_decide; [intros ?%IH; constructor; [by left | done]|].
  case_decide; [|done]. case_decide; [|done].
  destruct (idx2token tokenizer !! id) as [s|] eqn:Hs; [|done].
  intros ?%IH. constructor; [|done]. right. by eauto.
Qed.

Lemma decode_total_unknown tokens total id :
  decode_total tokenizer tokens total = UnknownTokenId id ->
  id ∈ tokens /\ 256 <= id /\
  (num_tokens tokenizer <= id \/ idx2token tokenizer !! id = None).
Proof.
  revert total. induction tokens as [|id0 tokens IH]; intros total; simpl.
  { done. }
  rewrite elem_of_cons.
  case_decide; [intros ?%IH; tauto|].
  case_decide; [|intros [= <-]; split; [by left | lia]].
  case_decide; [|done].
  destruct (idx2token tokenizer !! id0) as [s|] eqn:Hs.
  - intros ?%IH; tauto.
  - intros [= <-]. split; [by left|]. split; [lia | by right].
Qed.

Lemma emission_byte id : id < 256 -> emission tokenizer id = [byte_of_Z id].
Proof. intros. unfold emission. by rewrite decide_True. Qed.

Lemma emission_token id s :
  256 <= id -> idx2token tokenizer !! id = Some s ->
  emission tokenizer id = take (strlen s) s.
Proof. intros ? Hs. unfold emission. rewrite decide_False by lia. by rewrite Hs. Qed.

Lemma decode_fill_emissions tokens decoded :
  Forall (accepted tokenizer) tokens ->
  decode_fill tokenizer tokens decoded =
  decoded ++ concat (emission tokenizer <$> tokens).
Proof.
  intros Hall. revert decoded.
  induction Hall as [|id tokens Hid _ IH]; intros decoded.
  { simpl. by rewrite app_nil_r. }
  rewrite fmap_cons. cbn [decode_fill concat].
  destruct (decide (id < 256)) as [Hlt|Hge].
  { by rewrite IH, emission_byte, <- app_assoc. }
  destruct Hid as [?|(Hn & Hm & [s Hs])]; [lia|].
  rewrite decide_True by done. rewrite Hs.
  rewrite IH, (emission_token id s), <- app_assoc by (done || lia). done.
Qed.

(** The second loop writes [total_length] bytes: the buffer of
    [total_length + 1] bytes holds them and the terminator. *)
Lemma decode_fill_length tokens total total' decoded :
  decode_total tokenizer tokens total = DecodeOk total' ->
  (length (decode_fill tokenizer tokens decoded) + total
   = length decoded + total')%nat.
Proof.
  revert total decoded.
  induction tokens as [|id tokens IH]; intros total decoded; simpl.
  { intros [= <-]. lia. }
  case_decide.
  { intros Hfill%(IH _ (decoded ++ [byte_of_Z id])).
    rewrite length_app in Hfill. simpl in Hfill. lia. }
  case_decide; [|done]. case_decide; [|done].
  rewrite decide_True by done.
  destruct (idx2token tokenizer !! id) as [s|]; [|done].
  intros Hfill%(IH _ (decoded ++ take (strlen s) s)).
  rewrite length_app, length_take in Hfill. pose proof (strlen_le s). lia.
Qed.

(** [decode] returns the bytes, or an error and nothing else. *)
Lemma decode_ok_iff tokens :
  (exists out, decode tokenizer tokens = DecodeOk out) <->
  Forall (accepted tokenizer) tokens.
Proof.
  unfold decode. split.
  - intros [out Hout].
    destruct (decode_total tokenizer tokens 0) eqn:Ht; [|done..].
    by apply decode_total_accepts in Ht.
  - intros Hall. destruct (decode_total_ok tokens 0%nat Hall) as [total ->].
    by eauto.
Qed.

Lemma decode_ok tokens out :
  decode tokenizer tokens = DecodeOk out ->
  Forall (accepted tokenizer) tokens /\
  out = concat (emission tokenizer <$> tokens).
Proof.
  intros Hout.
  assert (Hall : Forall (accepted tokenizer) tokens)
    by (apply decode_ok_iff; eauto).
  split; [done|]. unfold decode in Hout.
  destruct (decode_total tokenizer tokens 0); [|done..].
  injection Hout as <-. by rewrite decode_fill_emissions.
Qed.

Lemma decode_unknown tokens id :
  decode tokenizer tokens = UnknownTokenId id ->
  id ∈ tokens /\ 256 <= id /\
  (num_tokens tokenizer <= id \/ idx2token tokenizer !! id = None).
Proof.
  unfold decode.
  destruct (decode_total tokenizer tokens 0) eqn:Ht; [done| |done].
  intros [= <-]. by apply decode_total_unknown in Ht.
Qed.

End DecodeFacts.

(** ** What [decode] returns *)

(** C3. [decode] rejects an id that is registered.  The tokenizer of the
    vocabulary ["the" -> 400, "there" -> 401] has the entry of 401 in its
    table, and [decode] of [401] is "Unknown token ID": the test
    [id < num_tokens] compares the id with the number of registrations, 2. *)
Theorem decode_rejects_registered_id :
  addTokens createTokenizer sample_entries = Some sample_tokenizer /\
  idx2token sample_tokenizer !! 401 = Some (bytes "there") /\
  num_tokens sample_tokenizer = 2 /\
  decode sample_tokenizer [401] = UnknownTokenId 401.
Proof. split; [apply sample_loaded|]. repeat split; vm_compute; reflexivity. Qed.

(** C1. The round trip fails on the scenario of the specification: with the
    vocabulary ["the" -> 400, "there" -> 401], [encode] of "there" is [401]
    and [decode] of [401] is "Unknown token ID". *)
Theorem roundtrip_fails_on_sample :
  addTokens createTokenizer sample_entries = Some sample_tokenizer /\
  encode sample_tokenizer (bytes "there") = Some [401] /\
  decode sample_tokenizer [401] = UnknownTokenId 401.
Proof. split; [apply sample_loaded|]. repeat split; vm_compute; reflexivity. Qed.

(** Counterexample to C6 as stated, on a token that holds a NUL byte: the
    table keeps the three bytes of [b'a\x00b'] under 256, and [decode] of
    [256] succeeds with the single byte "a". *)
Lemma decode_stops_at_nul :
  addTokens createTokenizer nul_entries = Some nul_tokenizer /\
  latest_token (parsed nul_entries) 256 = Some ["a"%byte; x00; "b"%byte] /\
  decode nul_tokenizer [256] = DecodeOk ["a"%byte] /\
  decode nul_tokenizer [256] <>
    DecodeOk (concat (spec_emission (parsed nul_entries) <$> [256])).
Proof.
  split; [apply nul_loaded|].
  split; [vm_compute; reflexivity|].
  split; [vm_compute; reflexivity|].
  vm_compute. discriminate.
Qed.

(** C6, amended.  On success, [decode] returns the concatenation, in order,
    of one emission per id, with nothing in between: for an id below 256 a
    single byte, equal to the id (to its low eight bits when the id is
    negative), whatever was registered under that id; for an id of 256 or
    more, the bytes of the byte-string most recently registered under that
    id up to its first NUL byte, excluded: all of them when it has none. *)
Theorem decode_concatenates (vocab : list (list byte * Z))
    (tokenizer : Tokenizer) (tokens : list Z) (out : list byte) :
  storeTokens createTokenizer vocab = Some tokenizer ->
  decode tokenizer tokens = DecodeOk out ->
  out = concat (emission tokenizer <$> tokens) /\
  Forall (fun id =>
    (id < 256 ->
       exists c, emission tokenizer id = [c] /\ Z_of_byte c = id mod 256 /\
                 (0 <= id -> Z_of_byte c = id)) /\
    (256 <= id ->
       exists s, latest_token vocab id = Some s /\
                 emission tokenizer id = take (strlen s) s /\
                 (x00 ∉ s -> emission tokenizer id = s))) tokens.
Proof.
  intros (_ & _ & _ & Htab)%loaded_inv [Hall ->]%decode_ok.
  split; [done|].
  eapply Forall_impl; [exact Hall|]. intros id Hid. split.
  - intros Hlt. exists (byte_of_Z id). rewrite emission_byte by done.
    split; [done|]. rewrite Z_of_byte_of_Z. split; [done|].
    intros. apply Z.mod_small. lia.
  - intros Hge. destruct Hid as [?|(_ & _ & [s Hs])]; [lia|].
    exists s. rewrite <- Htab. split; [done|].
    rewrite (emission_token _ id s) by done.
    split; [done|]. intros Hnul. by rewrite strlen_no_nul, firstn_all.
Qed.

Lemma decode_concatenates_witness :
  bytes "hai" = concat (emission nul_tokenizer <$> [104; 256; 105]).
Proof.
  refine (proj1 (decode_concatenates nul_vocab nul_tokenizer
                   [104; 256; 105] (bytes "hai") _ _)).
  - apply storeTokens_defined. vm_compute. exact I.
  - vm_compute; reflexivity.
Defined.

(** ** The parser and the length of tokens *)

(** Case analysis along the branches of [parse_loop]. *)
Ltac parse_cases :=
  repeat first
    [ case_decide
    | match goal with
      | |- context [match ?l with [] => _ | _ :: _ => _ end] => destruct l
      end ].

Section ParseFacts.

Variable quote : byte.
Implicit Types (literal : cstring) (out token : list byte).

(** The parser only appends to what it has written. *)
Lemma parse_loop_prefix out_len literal :
  forall out token,
    parse_loop quote out_len literal out = ParseOk token ->
    out `prefix_of` token.
Proof.
  induction literal as [literal IH] using (induction_ltof1 _ (@length byte)).
  unfold ltof in IH. intros out token.
  assert (Hrec : forall rest x,
            (length rest < length literal)%nat ->
            parse_loop quote out_len rest (out ++ [x]) = ParseOk token ->
            out `prefix_of` token).
  { intros rest x Hlt Hp%IH; [|done]. etrans; [|exact Hp]. by apply prefix_app_r. }
  destruct literal as [|c rest]; simpl.
  { repeat case_decide; by intros [= <-]. }
  parse_cases;
    try discriminate; try (by intros [= <-]);
    apply Hrec; simpl in *; lia.
Qed.

(** With less room the parser returns the first bytes of what it returns
    with more room. *)
Lemma parse_loop_shorter M N literal :
  (M <= N)%nat ->
  forall out token,
    parse_loop quote N literal out = ParseOk token ->
    (length out <= M)%nat ->
    parse_loop quote M literal out = ParseOk (take M token).
Proof.
  intros HMN.
  induction literal as [literal IH] using (induction_ltof1 _ (@length byte)).
  unfold ltof in IH. intros out token Hparse Hlen.
  pose proof (parse_loop_prefix _ _ _ _ Hparse) as Hpre.
  assert (Hstop : ~ (length out < M)%nat -> ParseOk out = ParseOk (take M token)).
  { intros Hge. f_equal. replace M with (length out) by lia.
    symmetry. by apply prefix_take_length. }
  assert (Hrec : forall rest x,
            (length rest < length literal)%nat ->
            (length out < M)%nat ->
            parse_loop quote N rest (out ++ [x]) = ParseOk token ->
            parse_loop quote M rest (out ++ [x]) = ParseOk (take M token)).
  { intros rest x Hlt HltM Hp. apply IH; [done..|].
    rewrite length_app. simpl. lia. }
  assert (Hsame : ParseOk out = ParseOk token ->
                  ParseOk out = ParseOk (take M token)).
  { intros [= <-]. by rewrite take_ge. }
  clear IH Hpre. revert Hparse.
  destruct literal as [|c rest]; simpl.
  { repeat case_decide; try discriminate; try done; intros; try lia; auto. }
  parse_cases;
    try discriminate; try done; try lia; auto;
    try (apply Hrec; simpl in *; lia).
Qed.

(** With more room the parser returns the same bytes, when it had found the
    closing quote before it ran out of room. *)
Lemma parse_loop_longer M N literal :
  (N <= M)%nat ->
  forall out token,
    parse_loop quote N literal out = ParseOk token ->
    (length token < N)%nat ->
    parse_loop quote M literal out = ParseOk token.
Proof.
  intros HNM.
  induction literal as [literal IH] using (induction_ltof1 _ (@length byte)).
  unfold ltof in IH. intros out token Hparse Hlen.
  pose proof (prefix_length _ _ (parse_loop_prefix _ _ _ _ Hparse)) as Hpre.
  assert (Hrec : forall rest x,
            (length rest < length literal)%nat ->
            parse_loop quote N rest (out ++ [x]) = ParseOk token ->
            parse_loop quote M rest (out ++ [x]) = ParseOk token).
  { intros rest x Hlt Hp. by apply IH. }
  clear IH. revert Hparse.
  destruct literal as [|c rest]; simpl.
  { repeat case_decide; try discriminate; try done; lia. }
  parse_cases;
    try discriminate; try done; try lia;
    try (apply Hrec; simpl in *; lia).
Qed.

End ParseFacts.

Lemma parse_python_literal_shorter M N (literal : cstring) (token : list byte) :
  (M <= N)%nat ->
  parse_python_literal literal N = ParseOk token ->
  parse_python_literal literal M = ParseOk (take M token).
Proof.
  intros HMN. unfold parse_python_literal.
  destruct literal as [|c rest]; [done|].
  case_decide.
  - destruct rest as [|q rest]; [done|].
    intros Hp. eapply parse_loop_shorter; [done..|simpl; lia].
  - intros Hp. eapply parse_loop_shorter; [done..|simpl; lia].
Qed.

(** A quoted literal with no backslash and no closing quote inside stands for
    the bytes between its quotes. *)
Lemma parse_loop_plain (quote : byte) (out_len : nat) (content out : list byte) :
  quote ∉ content -> backslash ∉ content ->
  (length out + length content < out_len)%nat ->
  parse_loop quote out_len (content ++ [quote]) out = ParseOk (out ++ content).
Proof.
  revert out. induction content as [|c content IH]; intros out Hq Hb Hlen; simpl.
  { rewrite decide_True by done. by rewrite app_nil_r. }
  apply not_elem_of_cons in Hq as [Hq1 Hq2], Hb as [Hb1 Hb2]. simpl in Hlen.
  rewrite decide_False by done. rewrite decide_True by lia.
  rewrite decide_False by done.
  rewrite IH; [by rewrite <- app_assoc|done..|].
  rewrite length_app. simpl. lia.
Qed.

Lemma parse_python_literal_longer M N (literal : cstring) (token : list byte) :
  (N <= M)%nat ->
  parse_python_literal literal N = ParseOk token ->
  (length token < N)%nat ->
  parse_python_literal literal M = ParseOk token.
Proof.
  intros HNM. unfold parse_python_literal.
  destruct literal as [|c rest]; [done|].
  case_decide.
  - destruct rest as [|q rest]; [done|]. by apply parse_loop_longer.
  - by apply parse_loop_longer.
Qed.

Lemma denotes_plain (quote : byte) (content : list byte) :
  quote <> "b"%byte -> quote ∉ content -> backslash ∉ content ->
  denotes (quote :: content ++ [quote]) content.
Proof.
  intros Hb Hq Hbs. unfold denotes, parse_python_literal.
  rewrite decide_False by done.
  rewrite parse_loop_plain; [done..|simpl; lia].
Qed.

Lemma addToken_defined tok literal id :
  (if addToken tok literal id is Some _ then True else False) ->
  addToken tok literal id = Some (default createTokenizer (addToken tok literal id)).
Proof. by destruct (addToken tok literal id). Qed.

(** Counterexample to C5 as stated: an entry of 257 bytes is not rejected.
    [addToken] returns normally, and both the table and the trie have
    changed: they hold the first 256 bytes of the entry under its id. *)
Lemma long_token_is_registered :
  denotes long_literal (replicate 257 "a"%byte) /\
  length (replicate 257 "a"%byte) = S MAX_TOKEN_LENGTH /\
  addToken createTokenizer long_literal 300 = Some long_tokenizer /\
  idx2token long_tokenizer <> idx2token createTokenizer /\
  idx2token long_tokenizer !! 300 = Some (replicate 256 "a"%byte) /\
  trie_value (root createTokenizer) (replicate 256 "a"%byte) = -1 /\
  trie_value (root long_tokenizer) (replicate 256 "a"%byte) = 300 /\
  num_tokens long_tokenizer = 1.
Proof.
  assert (Htab : idx2token long_tokenizer !! 300
                 = Some (replicate 256 "a"%byte))
    by (vm_compute; reflexivity).
  assert (Hnew : idx2token createTokenizer !! 300 = None) by reflexivity.
  split; [vm_compute; reflexivity|].
  split; [reflexivity|].
  split; [apply addToken_defined; vm_compute; exact I|].
  split; [intros Heq; congruence|].
  split; [exact Htab|].
  repeat split; vm_compute; reflexivity.
Qed.

(** C5, amended.  An entry is never rejected for its length.  When the
    literal stands for the byte-string [token] and the id is in the range of
    the table, [addToken] succeeds and registers the first
    [MAX_TOKEN_LENGTH] bytes of [token] under the id, in the trie and in the
    table: the whole of [token] when it has [MAX_TOKEN_LENGTH] bytes or
    fewer, and its first [MAX_TOKEN_LENGTH] bytes when it has more. *)
Theorem addToken_keeps_first_bytes (tokenizer : Tokenizer) (literal : cstring)
    (token : list byte) (id : Z) :
  denotes literal token ->
  0 <= id < MAX_TOKENS ->
  num_tokens tokenizer < INT_MAX ->
  let stored := take MAX_TOKEN_LENGTH token in
  exists tokenizer',
    addToken tokenizer literal id = Some tokenizer' /\
    ((length token <= MAX_TOKEN_LENGTH)%nat -> stored = token) /\
    ((MAX_TOKEN_LENGTH < length token)%nat ->
       length stored = MAX_TOKEN_LENGTH /\ stored <> token) /\
    root tokenizer' = insertTrie (root tokenizer) stored id /\
    trie_value (root tokenizer') stored = id /\
    idx2token tokenizer' = <[id := stored]> (idx2token tokenizer) /\
    idx2token tokenizer' !! id = Some stored /\
    num_tokens tokenizer' = num_tokens tokenizer + 1.
Proof.
  intros Hden Hid Hnum stored.
  assert (Hp : parse_python_literal literal MAX_TOKEN_LENGTH = ParseOk stored).
  { destruct (decide (MAX_TOKEN_LENGTH <= S (length token))%nat) as [Hle|Hgt].
    - by apply (parse_python_literal_shorter _ _ _ _ Hle).
    - unfold stored. rewrite take_ge by lia.
      apply (parse_python_literal_longer _ (S (length token))); [lia|done|lia]. }
  unfold addToken, addToken_store. rewrite Hp, decide_True by done.
  eexists. split; [done|]. simpl.
  split; [intros; by apply take_ge|].
  split.
  { intros Hlong. assert (Hl : length stored = MAX_TOKEN_LENGTH).
    { unfold stored. rewrite length_take. lia. }
    split; [done|]. intros Heq. rewrite Heq in Hl. lia. }
  split; [done|]. split.
  { rewrite trie_value_insert. by rewrite decide_True. }
  split; [done|]. split; [apply lookup_insert_eq | done].
Qed.

Lemma addToken_keeps_first_bytes_witness :
  exists tokenizer',
    addToken createTokenizer long_literal 300 = Some tokenizer' /\
    idx2token tokenizer' !! 300 = Some (replicate 256 "a"%byte).
Proof.
  destruct (addToken_keeps_first_bytes createTokenizer long_literal
              (replicate 257 "a"%byte) 300)
    as (tokenizer' & Hadd & _ & _ & _ & _ & _ & Htab & _).
  - vm_compute; reflexivity.
  - unfold MAX_TOKENS; lia.
  - vm_compute; reflexivity.
  - exists tokenizer'. split; [exact Hadd | exact Htab].
Defined.

(** ** Greedy matching *)

(** What an iteration of [encode] does with the result of [findLongest]: it
    falls back to the byte when there is no match, and also when the length
    of the match is equal to the position in the text; it emits the id of
    the match and moves past it otherwise. *)
Lemma encode_step_cases (root : TrieNode) (text : cstring) (length index : nat)
    (id : Z) (endIndex : nat) :
  findLongest root (take (length - index) (drop index text)) = (id, endIndex) ->
  encode_step root text length index =
  if decide (endIndex = 0%nat \/ endIndex = index)
  then (Z_of_byte (default x00 (text !! index)), S index)
  else (id, (index + endIndex)%nat).
Proof.
  intros Hfind. unfold encode_step.
  pose proof (findLongest_bounds root (take (length - index) (drop index text)))
    as [_ Hzero].
  rewrite Hfind in *. simpl in Hzero.
  repeat case_decide; try done; tauto.
Qed.

(** C2. [encode] does not emit the longest token that starts at a position
    when the length of that token is equal to the position.  With the
    vocabulary ["b" -> 300] and the text "ab", the token "b" starts at
    position 1, [findLongest] returns it with [endIndex = 1], and [encode]
    emits the byte 98 instead of 300: the test [endIndex == index] compares
    the length of the match with the position.  The same token is emitted
    at position 2 of "xab". *)
Theorem encode_misses_token_at_its_length :
  addTokens createTokenizer b_entries = Some b_tokenizer /\
  findLongest (root b_tokenizer) (drop 1 (bytes "ab")) = (300, 1%nat) /\
  encode b_tokenizer (bytes "ab") = Some [97; 98] /\
  encode b_tokenizer (bytes "xab") = Some [120; 97; 300].
Proof. split; [apply b_loaded|]. repeat split; vm_compute; reflexivity. Qed.

(** ** The round trip, up to the test on [num_tokens] *)

Section RoundTrip.

Variables (vocab : list (list byte * Z)) (tokenizer : Tokenizer) (t : cstring).
Hypothesis loaded : storeTokens createTokenizer vocab = Some tokenizer.
Hypothesis valid : valid_vocab vocab.
Hypothesis no_nul : x00 ∉ t.

(** What [decode] writes for the id of an iteration is what the iteration
    consumed. *)
Lemma encode_step_emission index :
  (index < length t)%nat ->
  let r := encode_step (root tokenizer) t (length t) index in
  (index < r.2 <= length t)%nat /\
  emission tokenizer r.1 = take (r.2 - index) (drop index t) /\
  emitted vocab r.1.
Proof.
  intros Hlt r.
  split; [by apply encode_step_advance|]. subst r.
  destruct (loaded_inv _ _ loaded) as (Hroot & _ & Hids & Htab).
  destruct (lookup_lt_is_Some_2 t index Hlt) as [c Hc].
  assert (Hbyte : emission tokenizer (Z_of_byte c) = take (S index - index) (drop index t)
                  /\ emitted vocab (Z_of_byte c)).
  { pose proof (Z_of_byte_range c). split; [|left; lia].
    rewrite emission_byte, byte_of_Z_of_byte by lia.
    replace (S index - index)%nat with 1%nat by lia.
    by rewrite (drop_S _ _ _ Hc). }
  set (data := take (length t - index) (drop index t)).
  destruct (findLongest_spec (root tokenizer) data)
    as [[Hr _] | (k & Hk & Hr & Hne & _)];
    rewrite (encode_step_cases _ _ _ _ _ _ Hr); simpl.
  { by rewrite Hc. }
  case_decide; simpl; [by rewrite Hc|].
  assert (Hdata : take k data = take k (drop index t)).
  { unfold data. rewrite take_take. f_equal. unfold data in Hk.
    rewrite length_take in Hk. lia. }
  rewrite Hdata in *. set (b := take k (drop index t)) in *.
  assert (Hlenb : length b = k).
  { unfold b. rewrite length_take. unfold data in Hk.
    rewrite length_take in Hk. lia. }
  rewrite Hroot, trie_value_built in Hne |- *.
  destruct (latest vocab b) as [v|] eqn:Hl; [simpl in *|done].
  destruct (valid b v) as [Hv Hb].
  { split; [|done]. intros Hnil. rewrite Hnil in Hlenb. simpl in Hlenb. lia. }
  replace (index + k - index)%nat with k by lia.
  split.
  - rewrite (emission_token _ v b) by (done || by rewrite Htab).
    rewrite strlen_no_nul, firstn_all; [done|].
    intros Hin. apply no_nul.
    by apply (subseteq_drop index), (subseteq_take k).
  - right. split; [|by rewrite Hb].
    apply latest_elem in Hl.
    pose proof (proj1 (Forall_forall _ _) Hids _ Hl) as Hrange. simpl in Hrange. lia.
Qed.

Lemma encode_loop_emissions fuel index encoded res :
  (index <= length t)%nat ->
  encode_loop fuel (root tokenizer) t (length t) index encoded = Some res ->
  exists new,
    res = encoded ++ new /\
    concat (emission tokenizer <$> new) = drop index t /\
    Forall (emitted vocab) new.
Proof.
  revert index encoded.
  induction fuel as [|fuel IH]; intros index encoded Hle.
  { simpl. case_decide; [done|]. intros [= <-]. exists [].
    rewrite app_nil_r, drop_ge by lia. by split. }
  destruct (decide (index < length t)%nat) as [Hlt|Hge].
  2:{ rewrite encode_loop_done by lia. intros [= <-]. exists [].
      rewrite app_nil_r, drop_ge by lia. by split. }
  rewrite encode_loop_unfold by done.
  destruct (encode_step_emission index Hlt) as (Hadv & Hem & Hid).
  destruct (encode_step (root tokenizer) t (length t) index) as [id index'].
  simpl in *. intros (new & -> & Hcat & Hall)%IH; [|lia].
  exists (id :: new). rewrite <- app_assoc. split; [done|].
  split; [|by constructor].
  rewrite fmap_cons. simpl. rewrite Hem, Hcat.
  rewrite <- (take_drop (index' - index) (drop index t)) at 2.
  rewrite drop_drop. by replace (index + (index' - index))%nat with index' by lia.
Qed.

(** The bytes [decode] writes for the ids of [encode] are the text; so
    [decode] returns the text when it accepts the ids, and when it does not,
    it is for an id that is registered and is not below [num_tokens]. *)
Lemma roundtrip_up_to_gate ids :
  encode tokenizer t = Some ids ->
  concat (emission tokenizer <$> ids) = t /\
  (Forall (fun id => id < 256 \/ id < num_tokens tokenizer) ids ->
   decode tokenizer ids = DecodeOk t) /\
  (forall id, decode tokenizer ids = UnknownTokenId id ->
     256 <= id /\ num_tokens tokenizer <= id /\
     is_Some (idx2token tokenizer !! id)) /\
  (forall id, decode tokenizer ids <> TableOutOfBounds id).
Proof.
  unfold encode. rewrite (strlen_no_nul _ no_nul).
  intros (new & Hids & Hcat & Hall)%encode_loop_emissions; [|lia].
  simpl in Hids. subst new. rewrite drop_0 in Hcat.
  destruct (loaded_inv _ _ loaded) as (_ & _ & _ & Htab).
  split; [done|]. split; [|split].
  - intros Hgate.
    assert (Hacc : Forall (accepted tokenizer) ids).
    { apply Forall_forall. intros id Hin.
      pose proof (proj1 (Forall_forall _ _) Hall _ Hin) as [?|[Hr Hs]];
        [by left|].
      pose proof (proj1 (Forall_forall _ _) Hgate _ Hin) as [?|?]; [lia|].
      right. rewrite Htab. split; [done|]. split; [lia | done]. }
    apply decode_ok_iff in Hacc as [out Hout].
    rewrite Hout. apply decode_ok in Hout as [_ ->]. by rewrite Hcat.
  - intros id (Hin & Hge & Hwhy)%decode_unknown.
    pose proof (proj1 (Forall_forall _ _) Hall _ Hin) as [?|[Hr Hs]]; [lia|].
    rewrite <- Htab in Hs. split; [done|]. split; [|done].
    destruct Hwhy as [?|Hnone]; [done|]. rewrite Hnone in Hs. by destruct Hs.
  - intros id Hoob. unfold decode in Hoob.
    destruct (decode_total tokenizer ids 0) eqn:Ht; try done.
    injection Hoob as ->.
    assert (Hin : id ∈ ids /\ MAX_TOKENS <= id).
    { clear -Ht. revert Ht. generalize 0%nat.
      induction ids as [|id0 ids IH]; intros n; simpl; [done|].
      rewrite elem_of_cons.
      repeat case_decide; try done.
      - intros ?%IH. tauto.
      - destruct (idx2token tokenizer !! id0); [|done]. intros ?%IH. tauto.
      - intros [= <-]. split; [by left | lia]. }
    destruct Hin as [Hin Hbig].
    pose proof (proj1 (Forall_forall _ _) Hall _ Hin) as [?|[Hr Hs]];
      unfold MAX_TOKENS in *; lia.
Qed.

End RoundTrip.

(** ** The scenarios of the specification *)

Example greedy_longest_match :
  encode (default createTokenizer
            (addTokens createTokenizer [(bytes "'a'", 301); (bytes "'ab'", 300)]))
         (bytes "ab") = Some [300].
Proof. vm_compute. reflexivity. Qed.

Example scenario_there :
  encode sample_tokenizer (bytes "there") = Some [401] /\
  encode sample_tokenizer (bytes "the re") = Some [400; 32; 114; 101].
Proof. split; vm_compute; reflexivity. Qed.

(** The walk goes down "t", "h" and stops on "x": no value was seen. *)
Example walk_without_value :
  (if walk (root sample_tokenizer) (bytes "th") is Some _ then True else False) /\
  findLongest (root sample_tokenizer) (bytes "thx") = (-1, 0%nat).
Proof. split; vm_compute; done. Qed.

Example unknown_id :
  decode createTokenizer [256] = UnknownTokenId 256.
Proof. reflexivity. Qed.

Example empty_inputs :
  encode sample_tokenizer [] = Some [] /\ decode sample_tokenizer [] = DecodeOk [].
Proof. split; reflexivity. Qed.

(** The vocabulary of the scenario is valid, and the table of its tokenizer
    is too short for the test of [decode]. *)
Example sample_vocab_valid : valid_vocab sample_vocab.
Proof.
  intros b v [Hne Hl]. pose proof (latest_elem _ _ _ Hl) as Hin.
  apply list_elem_of_In in Hin.
  destruct Hin as [[= <- <-] | [[= <- <-] | []]]; split; (lia || reflexivity).
Qed.

(** * Further properties of the code *)

(** ** The trie grows *)

Section TrieGrowth.

Implicit Types (node : TrieNode) (key : list byte).

Lemma walk_cons node c key :
  walk node (c :: key) =
  match children node c with
  | Some child => walk child key
  | None => None
  end.
Proof. reflexivity. Qed.

Lemma walk_fresh key : key <> [] -> walk createTrieNode key = None.
Proof. by destruct key. Qed.

Lemma insertTrie_walk_kept node key v key' :
  is_Some (walk node key') -> is_Some (walk (insertTrie node key v) key').
Proof.
  revert node key'. induction key as [|c key IH]; intros node key' Hw.
  - destruct key'; [by eauto | done].
  - destruct key' as [|c' key']; [by eauto|].
    rewrite walk_cons in *. cbn [insertTrie children].
    destruct (decide (c' = c)) as [->|Hne].
    + rewrite set_child_eq. apply IH.
      destruct (children node c); [done | by destruct Hw].
    + by rewrite set_child_ne.
Qed.

Lemma insertTrie_walk_key node key v p :
  p `prefix_of` key -> is_Some (walk (insertTrie node key v) p).
Proof.
  revert node p. induction key as [|c key IH]; intros node p Hp.
  - apply prefix_nil_inv in Hp as ->. by eauto.
  - destruct p as [|c' p]; [by eauto|].
    pose proof (prefix_cons_inv_1 _ _ _ _ Hp) as ->.
    apply prefix_cons_inv_2 in Hp.
    rewrite walk_cons. cbn [insertTrie children].
    rewrite set_child_eq. by apply IH.
Qed.

Lemma insertTrie_walk_new node key v key' :
  is_Some (walk (insertTrie node key v) key') ->
  is_Some (walk node key') \/ key' `prefix_of` key.
Proof.
  revert node key'. induction key as [|c key IH]; intros node key' Hw.
  - destruct key'; [right; apply prefix_nil | by left].
  - destruct key' as [|c' key']; [right; apply prefix_nil|].
    rewrite walk_cons in *. cbn [insertTrie children] in Hw.
    destruct (decide (c' = c)) as [->|Hne].
    + rewrite set_child_eq in Hw. apply IH in Hw as [Hw|Hp].
      * destruct (children node c) as [child|]; [by left|].
        destruct key' as [|c1 key1]; [right; apply prefix_cons, prefix_nil|].
        by destruct Hw.
      * right. by apply prefix_cons.
    + rewrite set_child_ne in Hw by done. by left.
Qed.

End TrieGrowth.

(** X1. [insertTrie] only adds to the trie.  Every byte-string that led to
    a node before the insertion still leads to one, every prefix of the key
    leads to a node afterwards, no other node appears, and no byte-string
    other than the key changes its value. *)
Theorem insertTrie_only_adds (node : TrieNode) (key : list byte) (v : Z) :
  (forall key', is_Some (walk node key') ->
                is_Some (walk (insertTrie node key v) key')) /\
  (forall p, p `prefix_of` key -> is_Some (walk (insertTrie node key v) p)) /\
  (forall key', is_Some (walk (insertTrie node key v) key') ->
                is_Some (walk node key') \/ key' `prefix_of` key) /\
  (forall key', key' <> key ->
                trie_value (insertTrie node key v) key' = trie_value node key').
Proof.
  split; [intros; by apply insertTrie_walk_kept|].
  split; [intros; by apply insertTrie_walk_key|].
  split; [intros key' Hw; by apply (insertTrie_walk_new _ _ v)|].
  intros key' Hne. rewrite trie_value_insert. by rewrite decide_False.
Qed.

Lemma insertTrie_only_adds_witness :
  is_Some (walk (insertTrie (insertTrie createTrieNode (bytes "ab") 300)
                   (bytes "cd") 301) (bytes "ab")).
Proof.
  apply (proj1 (insertTrie_only_adds
                  (insertTrie createTrieNode (bytes "ab") 300)
                  (bytes "cd") 301)).
  apply insertTrie_walk_key. reflexivity.
Defined.

(** ** The order of the insertions *)

Section InsertionOrder.

Implicit Types (ins : list (list byte * Z)) (key data : list byte).

(** [findLongest] reads the trie through the values of the prefixes of the
    data that have one byte or more. *)
Lemma findLongest_local (t1 t2 : TrieNode) data :
  (forall k, (0 < k <= length data)%nat ->
     trie_value t1 (take k data) = trie_value t2 (take k data)) ->
  findLongest t1 data = findLongest t2 data.
Proof.
  intros Hk.
  destruct (findLongest_spec t1 data) as [[-> H1] | (k1 & Hk1 & -> & Hne1 & Hl1)],
           (findLongest_spec t2 data) as [[-> H2] | (k2 & Hk2 & -> & Hne2 & Hl2)].
  - done.
  - exfalso. apply Hne2. rewrite <- Hk by done. by apply H1.
  - exfalso. apply Hne1. rewrite Hk by done. by apply H2.
  - assert (k1 = k2) as ->.
    { destruct (decide (k1 < k2)%nat).
      { exfalso. apply Hne2. rewrite <- Hk by done. apply Hl1. lia. }
      destruct (decide (k2 < k1)%nat); [|lia].
      exfalso. apply Hne1. rewrite Hk by done. apply Hl2. lia. }
    by rewrite Hk.
Qed.

Lemma findLongest_ext (t1 t2 : TrieNode) data :
  (forall key, key <> [] -> trie_value t1 key = trie_value t2 key) ->
  findLongest t1 data = findLongest t2 data.
Proof.
  intros Hext. apply findLongest_local. intros k Hk. apply Hext.
  intros Hnil%(f_equal length). rewrite length_take in Hnil. simpl in Hnil. lia.
Qed.

Lemma encode_loop_ext fuel (r1 r2 : TrieNode) (text : cstring)
    (length index : nat) (encoded : list Z) :
  (forall data, findLongest r1 data = findLongest r2 data) ->
  encode_loop fuel r1 text length index encoded =
  encode_loop fuel r2 text length index encoded.
Proof.
  intros Hext. revert index encoded.
  induction fuel as [|fuel IH]; intros index encoded; simpl; [done|].
  unfold encode_step. rewrite Hext.
  case_decide; [|done].
  destruct (findLongest r2 _) as [id endIndex]. case_decide; apply IH.
Qed.

Lemma latest_NoDup ins key v :
  NoDup ins.*1 -> latest ins key = Some v <-> (key, v) ∈ ins.
Proof.
  intros Hnd. split; [apply latest_elem|].
  induction ins as [|[key0 v0] ins IH] using rev_ind.
  { by intros ?%elem_of_nil. }
  rewrite fmap_app in Hnd. apply NoDup_app in Hnd as (Hnd & Hfresh & _).
  rewrite latest_snoc, elem_of_app, list_elem_of_singleton. simpl.
  intros [Hin|[= -> ->]].
  - rewrite decide_False; [by apply IH|].
    intros ->. apply (Hfresh key).
    + by apply (list_elem_of_fmap_2 fst _ (key, v)).
    + simpl. apply list_elem_of_singleton. done.
  - by rewrite decide_True.
Qed.

Lemma latest_Permutation ins1 ins2 key :
  NoDup ins1.*1 -> ins1 ≡ₚ ins2 -> latest ins1 key = latest ins2 key.
Proof.
  intros Hnd Hperm.
  assert (Hnd2 : NoDup ins2.*1) by (by rewrite <- Hperm).
  destruct (latest ins1 key) as [v|] eqn:H1.
  - symmetry. apply latest_NoDup; [done|]. rewrite <- Hperm.
    by apply latest_NoDup.
  - destruct (latest ins2 key) as [v|] eqn:H2; [|done].
    apply latest_NoDup in H2; [|done]. rewrite <- Hperm in H2.
    apply latest_NoDup in H2; [|done]. congruence.
Qed.

End InsertionOrder.

(** X2. The order of the insertions does not matter when no byte-string is
    inserted twice: two sequences with the same insertions, in any order,
    build tries that hold the same values and on which [findLongest] gives
    the same result, and the tokenizers loaded from them encode every text
    alike. *)
Theorem insertion_order_is_irrelevant (ins1 ins2 : list (list byte * Z)) :
  NoDup ins1.*1 ->
  ins1 ≡ₚ ins2 ->
  (forall root key,
     trie_value (insertAll root ins1) key = trie_value (insertAll root ins2) key) /\
  (forall root data,
     findLongest (insertAll root ins1) data = findLongest (insertAll root ins2) data) /\
  (forall tokenizer1 tokenizer2 text,
     storeTokens createTokenizer ins1 = Some tokenizer1 ->
     storeTokens createTokenizer ins2 = Some tokenizer2 ->
     encode tokenizer1 text = encode tokenizer2 text).
Proof.
  intros Hnd Hperm.
  assert (Hval : forall root key,
            trie_value (insertAll root ins1) key
            = trie_value (insertAll root ins2) key).
  { intros root key. rewrite !trie_value_insertAll.
    by rewrite (latest_Permutation ins1 ins2). }
  split; [done|].
  split; [intros root data; apply findLongest_ext; intros; apply Hval|].
  intros tokenizer1 tokenizer2 text (Hr1 & _)%storeTokens_inv (Hr2 & _)%storeTokens_inv.
  unfold encode. rewrite Hr1, Hr2. apply encode_loop_ext.
  intros data. apply findLongest_ext. intros. apply Hval.
Qed.

Lemma insertion_order_is_irrelevant_witness :
  findLongest
    (insertAll createTrieNode [(bytes "the", 400); (bytes "there", 401)])
    (bytes "there") =
  findLongest
    (insertAll createTrieNode [(bytes "there", 401); (bytes "the", 400)])
    (bytes "there").
Proof.
  apply (insertion_order_is_irrelevant
           [(bytes "the", 400); (bytes "there", 401)]
           [(bytes "there", 401); (bytes "the", 400)]).
  - apply NoDup_cons. split.
    + intros Hin. apply list_elem_of_In in Hin. cbv in Hin.
      destruct Hin as [Hin|[]]. discriminate.
    + apply NoDup_singleton.
  - apply Permutation_swap.
Defined.

(** ** More on the parser *)

Section ParseSteps.

Variables (quote : byte) (out_len : nat).
Implicit Types (content rest out : list byte).

(** The parser copies the bytes that are neither the quote nor a
    backslash, as long as there is room. *)
Lemma parse_loop_copy content rest out :
  quote ∉ content -> backslash ∉ content ->
  (length out + length content <= out_len)%nat ->
  parse_loop quote out_len (content ++ rest) out =
  parse_loop quote out_len rest (out ++ content).
Proof.
  revert out. induction content as [|c content IH]; intros out Hq Hb Hlen.
  { by rewrite app_nil_r. }
  apply not_elem_of_cons in Hq as [Hq1 Hq2], Hb as [Hb1 Hb2]. simpl in Hlen.
  cbn [app parse_loop].
  rewrite decide_False by done. rewrite decide_True by lia.
  rewrite decide_False by done.
  rewrite IH; [by rewrite <- app_assoc|done..|].
  rewrite length_app. simpl. lia.
Qed.

Lemma parse_loop_full rest out :
  x00 <> quote -> quote ∉ rest -> (out_len <= length out)%nat ->
  parse_loop quote out_len rest out = ParseOk out.
Proof.
  intros H0 Hq Hlen. destruct rest as [|c rest]; cbn [parse_loop].
  - rewrite decide_False by done. by rewrite decide_False by lia.
  - apply not_elem_of_cons in Hq as [Hq _].
    rewrite decide_False by done. by rewrite decide_False by lia.
Qed.

Lemma parse_loop_length literal :
  forall out token,
    parse_loop quote out_len literal out = ParseOk token ->
    (length out <= out_len)%nat ->
    (length token <= out_len)%nat.
Proof.
  induction literal as [literal IH] using (induction_ltof1 _ (@length byte)).
  unfold ltof in IH. intros out token Hparse Hlen.
  assert (Hrec : forall rest x,
            (length rest < length literal)%nat ->
            (length out < out_len)%nat ->
            parse_loop quote out_len rest (out ++ [x]) = ParseOk token ->
            (length token <= out_len)%nat).
  { intros rest x Hlt Hroom Hp. apply (IH rest Hlt _ _ Hp).
    rewrite length_app. simpl. lia. }
  clear IH. revert Hparse.
  destruct literal as [|c rest]; simpl.
  { repeat case_decide; try discriminate; by intros [= <-]. }
  parse_cases;
    try discriminate; try (by intros [= <-]);
    apply Hrec; simpl in *; lia.
Qed.

(** One escape sequence, one byte. *)
Lemma parse_loop_escape (e c : byte) rest out :
  quote <> backslash -> (length out < out_len)%nat ->
  (e, c) ∈ [("n"%byte, x0a); ("r"%byte, x0d); ("t"%byte, x09);
            (backslash, backslash); (single_quote, single_quote);
            (double_quote, double_quote)] ->
  parse_loop quote out_len (backslash :: e :: rest) out =
  parse_loop quote out_len rest (out ++ [c]).
Proof.
  intros Hq Hlen Hin. cbn [parse_loop].
  rewrite decide_False by done. rewrite decide_True by done.
  rewrite decide_True by done.
  apply list_elem_of_In in Hin. simpl in Hin.
  destruct Hin as [[= <- <-]|[[= <- <-]|[[= <- <-]|[[= <- <-]|[[= <- <-]|[[= <- <-]|[]]]]]]];
    reflexivity.
Qed.

Lemma parse_loop_hex (h1 h2 : byte) rest out :
  quote <> backslash -> (length out < out_len)%nat ->
  parse_loop quote out_len (backslash :: "x"%byte :: h1 :: h2 :: rest) out =
  if decide (parse_hex h1 <> -1 /\ parse_hex h2 <> -1)
  then parse_loop quote out_len rest
         (out ++ [byte_of_Z (Z.lor (Z.shiftl (parse_hex h1) 4) (parse_hex h2))])
  else ParseError.
Proof.
  intros Hq Hlen. cbn [parse_loop].
  rewrite decide_False by done. rewrite decide_True by done.
  by rewrite decide_True by done.
Qed.


End ParseSteps.

Lemma parse_python_literal_length (literal : cstring) (out_len : nat)
    (token : list byte) :
  parse_python_literal literal out_len = ParseOk token ->
  (length token <= out_len)%nat.
Proof.
  unfold parse_python_literal.
  destruct literal as [|c rest]; [done|].
  case_decide.
  - destruct rest as [|q rest]; [done|].
    intros Hp. apply (parse_loop_length _ _ _ _ _ Hp). simpl. lia.
  - intros Hp. apply (parse_loop_length _ _ _ _ _ Hp). simpl. lia.
Qed.

Lemma parsed_elem (entries : list (cstring * Z)) (token : list byte) (id : Z) :
  (token, id) ∈ parsed entries ->
  exists literal, (literal, id) ∈ entries /\
    parse_python_literal literal MAX_TOKEN_LENGTH = ParseOk token.
Proof.
  induction entries as [|[lit id0] entries IH]; simpl.
  { by intros ?%elem_of_nil. }
  assert (Hrec : (token, id) ∈ parsed entries ->
            exists literal, (literal, id) ∈ (lit, id0) :: entries /\
              parse_python_literal literal MAX_TOKEN_LENGTH = ParseOk token).
  { intros (l & Hin & Hp)%IH. exists l. split; [by right | done]. }
  destruct (parse_python_literal lit MAX_TOKEN_LENGTH) as [t| |] eqn:Hp;
    [|done..].
  rewrite elem_of_cons. intros [[= -> ->]|Hin]; [|by auto].
  exists lit. split; [by left | done].
Qed.

(** X3. The parser never writes past its buffer: what it returns has at
    most [out_len] bytes.  So every byte-string that [addToken] has put in
    the table, whatever the literals, has at most [MAX_TOKEN_LENGTH] bytes
    (the copy to the local array of [addToken] and the [memcpy] stay in
    bounds), is what the parser returned for a literal of the vocabulary
    with that id, and sits at an index of the table. *)
Theorem stored_tokens_fit (entries : list (cstring * Z)) (tokenizer : Tokenizer)
    (id : Z) (token : list byte) :
  addTokens createTokenizer entries = Some tokenizer ->
  idx2token tokenizer !! id = Some token ->
  (length token <= MAX_TOKEN_LENGTH)%nat /\
  0 <= id < MAX_TOKENS /\
  exists literal, (literal, id) ∈ entries /\
    parse_python_literal literal MAX_TOKEN_LENGTH = ParseOk token.
Proof.
  intros Hload%addTokens_storeTokens Htab.
  apply loaded_inv in Hload as (_ & _ & Hids & Hlook).
  rewrite Hlook in Htab. apply latest_token_elem in Htab.
  pose proof (proj1 (Forall_forall _ _) Hids _ Htab) as Hid. simpl in Hid.
  destruct (parsed_elem _ _ _ Htab) as (lit & Hin & Hp).
  split; [by apply (parse_python_literal_length lit)|].
  split; [done|]. by exists lit.
Qed.

Lemma stored_tokens_fit_witness :
  (length (bytes "there") <= MAX_TOKEN_LENGTH)%nat /\
  0 <= 401 < MAX_TOKENS /\
  exists literal, (literal, 401) ∈ sample_entries /\
    parse_python_literal literal MAX_TOKEN_LENGTH = ParseOk (bytes "there").
Proof.
  apply (stored_tokens_fit sample_entries sample_tokenizer 401 (bytes "there")).
  - apply addTokens_defined. vm_compute. exact I.
  - vm_compute. reflexivity.
Defined.

(** ** Literals that parse *)

Lemma hex_digits_of_byte (c : byte) :
  parse_hex (hex_digit (Z_of_byte c / 16)) = Z_of_byte c / 16 /\
  parse_hex (hex_digit (Z_of_byte c mod 16)) = Z_of_byte c mod 16 /\
  byte_of_Z (Z.lor (Z.shiftl (Z_of_byte c / 16) 4) (Z_of_byte c mod 16)) = c.
Proof. destruct c; vm_compute; done. Qed.

Lemma parse_loop_repr_byte (out_len : nat) (c : byte) (rest out : list byte) :
  (length out < out_len)%nat ->
  parse_loop single_quote out_len (repr_byte c ++ rest) out =
  parse_loop single_quote out_len rest (out ++ [c]).
Proof.
  intros Hlen. unfold repr_byte.
  assert (Hq : single_quote <> backslash) by done.
  repeat case_decide; subst;
    try (apply parse_loop_escape; [done..|]; apply list_elem_of_In; simpl; tauto).
  - apply (parse_loop_copy _ _ [c]).
    + by apply not_elem_of_cons; split; [|apply not_elem_of_nil].
    + by apply not_elem_of_cons; split; [|apply not_elem_of_nil].
    + simpl. lia.
  - cbn [app]. rewrite parse_loop_hex by done.
    destruct (hex_digits_of_byte c) as (-> & -> & ->).
    pose proof (Z_of_byte_range c).
    rewrite decide_True; [done|].
    split; [pose proof (Z.div_pos (Z_of_byte c) 16) |
            pose proof (Z.mod_pos_bound (Z_of_byte c) 16)]; lia.
Qed.

Lemma parse_loop_repr (out_len : nat) (token out : list byte) :
  (length out + length token <= out_len)%nat ->
  parse_loop single_quote out_len
    (concat (repr_byte <$> token) ++ [single_quote]) out =
  ParseOk (out ++ token).
Proof.
  revert out. induction token as [|c token IH]; intros out Hlen; simpl in *.
  { by rewrite app_nil_r. }
  rewrite <- app_assoc, parse_loop_repr_byte by lia.
  rewrite IH; [by rewrite <- app_assoc|]. rewrite length_app. simpl. lia.
Qed.

(** X4. Every byte-string of at most [MAX_TOKEN_LENGTH] bytes can be
    registered: written as a [b'...'] literal with the escapes [\n], [\r],
    [\t], [\\], [\'] and [\xNN] (as Python prints [bytes]), it is parsed
    back to itself, NUL bytes included, and [addToken] registers exactly
    these bytes. *)
Theorem repr_literal_parses (tokenizer : Tokenizer) (token : list byte)
    (id : Z) (out_len : nat) :
  (length token <= out_len)%nat ->
  parse_python_literal (repr_literal token) out_len = ParseOk token /\
  ((length token <= MAX_TOKEN_LENGTH)%nat ->
   addToken tokenizer (repr_literal token) id
   = addToken_store tokenizer token id).
Proof.
  intros Hlen.
  assert (Hp : forall n, (length token <= n)%nat ->
            parse_python_literal (repr_literal token) n = ParseOk token).
  { intros n Hn. unfold parse_python_literal, repr_literal.
    rewrite decide_True by done. by apply (parse_loop_repr n token []). }
  split; [by apply Hp|].
  intros Hmax. unfold addToken. by rewrite Hp.
Qed.

Lemma repr_literal_parses_witness :
  parse_python_literal (repr_literal ["a"%byte; x00; x0a; xff; single_quote]) 5
  = ParseOk ["a"%byte; x00; x0a; xff; single_quote].
Proof.
  apply (repr_literal_parses createTokenizer
           ["a"%byte; x00; x0a; xff; single_quote] 300 5).
  simpl. lia.
Defined.

(** X5. The parser takes the first byte of the literal, after an optional
    [b], as the quote, whatever that byte is: a literal made of a quote, of
    bytes that are neither that quote nor a backslash, and of the same quote
    again is parsed to the bytes in between, with or without a leading [b],
    when they fit in the buffer. *)
Theorem plain_literal_parses (quote : byte) (content : list byte)
    (out_len : nat) :
  quote <> "b"%byte ->
  quote ∉ content -> backslash ∉ content ->
  (length content <= out_len)%nat ->
  parse_python_literal (quote :: content ++ [quote]) out_len = ParseOk content /\
  parse_python_literal ("b"%byte :: quote :: content ++ [quote]) out_len
  = ParseOk content.
Proof.
  intros Hb Hq Hbs Hlen.
  assert (Hloop : parse_loop quote out_len (content ++ [quote]) []
                  = ParseOk content).
  { rewrite parse_loop_copy by done. cbn [parse_loop app].
    by rewrite decide_True. }
  unfold parse_python_literal. split.
  - by rewrite decide_False.
  - by rewrite decide_True.
Qed.

Lemma plain_literal_parses_witness :
  parse_python_literal (bytes "|it's|") 4 = ParseOk (bytes "it's").
Proof.
  apply (plain_literal_parses "|"%byte (bytes "it's") 4).
  - discriminate.
  - intros Hin. apply list_elem_of_In in Hin. cbv in Hin.
    repeat (destruct Hin as [Hin|Hin]; [discriminate|]). exact Hin.
  - intros Hin. apply list_elem_of_In in Hin. cbv in Hin.
    repeat (destruct Hin as [Hin|Hin]; [discriminate|]). exact Hin.
  - simpl. lia.
Defined.

(** X6. The closing quote is not checked.  When the bytes after the opening
    quote hold neither that quote nor a backslash, a literal with fewer of
    them than the buffer has room for makes the parser copy the terminator
    and read past it, and [addToken] goes on with what follows the literal
    in memory; with as many bytes as the buffer or more, the parser stops at
    [out_len] bytes and returns them, closing quote or not. *)
Theorem unterminated_literal (quote : byte) (content : list byte)
    (out_len : nat) :
  quote <> "b"%byte -> quote <> x00 ->
  quote ∉ content -> backslash ∉ content ->
  ((length content < out_len)%nat ->
     parse_python_literal (quote :: content) out_len = ParseOutOfBounds) /\
  ((out_len <= length content)%nat ->
     parse_python_literal (quote :: content) out_len
     = ParseOk (take out_len content)) /\
  ((length content < MAX_TOKEN_LENGTH)%nat ->
     forall tokenizer id, addToken tokenizer (quote :: content) id = None).
Proof.
  intros Hb H0 Hq Hbs.
  assert (Hshort : forall n, (length content < n)%nat ->
            parse_python_literal (quote :: content) n = ParseOutOfBounds).
  { intros n Hn. unfold parse_python_literal. rewrite decide_False by done.
    rewrite <- (app_nil_r content) at 1.
    rewrite parse_loop_copy by (done || (simpl; lia)). cbn [parse_loop app].
    rewrite decide_False by done. by rewrite decide_True. }
  split; [apply Hshort|]. split.
  - intros Hn. unfold parse_python_literal. rewrite decide_False by done.
    rewrite <- (take_drop out_len content) at 1.
    assert (Hsub : forall x, x ∉ content ->
              (x ∉ take out_len content) /\ (x ∉ drop out_len content)).
    { intros x Hx. split; intros Hin; apply Hx.
      - by apply (subseteq_take out_len).
      - by apply (subseteq_drop out_len). }
    rewrite parse_loop_copy;
      [|apply Hsub, Hq|apply Hsub, Hbs|rewrite length_take; simpl; lia].
    apply parse_loop_full; [done|apply Hsub, Hq|].
    simpl. rewrite length_take. lia.
  - intros Hn tokenizer id. unfold addToken. by rewrite Hshort.
Qed.

Lemma unterminated_literal_witness :
  parse_python_literal (bytes "'abc") 256 = ParseOutOfBounds.
Proof.
  apply (proj1 (unterminated_literal single_quote (bytes "abc") 256
                  ltac:(discriminate) ltac:(discriminate)
                  ltac:(intros Hin; apply list_elem_of_In in Hin; cbv in Hin;
                        repeat (destruct Hin as [Hin|Hin]; [discriminate|]);
                        exact Hin)
                  ltac:(intros Hin; apply list_elem_of_In in Hin; cbv in Hin;
                        repeat (destruct Hin as [Hin|Hin]; [discriminate|]);
                        exact Hin))).
  simpl. lia.
Defined.



(** ** More on the encoder *)

Section EncodeMore.

Implicit Types (root : TrieNode) (text : cstring) (encoded : list Z).

Lemma encode_data_take text length index :
  take (length - index) (drop index (take length text))
  = take (length - index) (drop index text).
Proof.
  destruct (decide (index <= length)%nat) as [Hle|Hgt].
  - rewrite !take_drop_commute, take_take. do 2 f_equal. lia.
  - replace (length - index)%nat with 0%nat by lia. by rewrite !take_0.
Qed.

(** The loop reads the text below [length] only. *)
Lemma encode_loop_take fuel root text length index encoded :
  encode_loop fuel root (take length text) length index encoded =
  encode_loop fuel root text length index encoded.
Proof.
  revert index encoded.
  induction fuel as [|fuel IH]; intros index encoded; simpl; [done|].
  case_decide as Hlt; [|done].
  unfold encode_step. rewrite encode_data_take, lookup_take_lt by done.
  destruct (findLongest root _) as [id endIndex]. case_decide; apply IH.
Qed.

Lemma strlen_take text : strlen (take (strlen text) text) = strlen text.
Proof.
  rewrite strlen_no_nul by apply take_strlen_no_nul.
  rewrite length_take. pose proof (strlen_le text). lia.
Qed.

Lemma strlen_app_nul (t1 t2 : cstring) :
  x00 ∉ t1 -> strlen (t1 ++ x00 :: t2) = length t1.
Proof.
  induction t1 as [|c t1 IH]; simpl.
  { done. }
  rewrite not_elem_of_cons. intros [Hc Ht].
  rewrite decide_False by done. by rewrite IH.
Qed.

(** Two tries that [findLongest] cannot tell apart on the pieces of the
    text give the same loop. *)
Lemma encode_loop_same fuel (r1 r2 : TrieNode) text length index encoded :
  (forall i, (i < length)%nat ->
     findLongest r1 (take (length - i) (drop i text))
     = findLongest r2 (take (length - i) (drop i text))) ->
  encode_loop fuel r1 text length index encoded =
  encode_loop fuel r2 text length index encoded.
Proof.
  intros Hsame. revert index encoded.
  induction fuel as [|fuel IH]; intros index encoded; simpl; [done|].
  case_decide as Hlt; [|done].
  unfold encode_step. rewrite Hsame by done.
  destruct (findLongest r2 _) as [id endIndex]. case_decide; apply IH.
Qed.

End EncodeMore.

(** X8. [encode] reads its text as a C string: what follows the first NUL
    byte of the buffer is ignored, so the encoding of a text with a NUL byte
    in it is the encoding of what precedes that byte. *)
Theorem encode_stops_at_nul (tokenizer : Tokenizer) (t1 t2 : cstring) :
  x00 ∉ t1 ->
  encode tokenizer (t1 ++ x00 :: t2) = encode tokenizer t1.
Proof.
  intros Hnul. unfold encode.
  rewrite strlen_app_nul, strlen_no_nul by done.
  rewrite <- (encode_loop_take _ _ (t1 ++ x00 :: t2)).
  by rewrite take_app_length.
Qed.

Lemma encode_stops_at_nul_witness :
  encode sample_tokenizer (bytes "the" ++ x00 :: bytes "there")
  = encode sample_tokenizer (bytes "the").
Proof.
  apply (encode_stops_at_nul sample_tokenizer (bytes "the") (bytes "there")).
  intros Hin. apply list_elem_of_In in Hin. cbv in Hin.
  repeat (destruct Hin as [Hin|Hin]; [discriminate|]). exact Hin.
Defined.

(** X9. Registering a token that occurs nowhere in a text does not change
    the encoding of that text. *)
Theorem absent_token_changes_nothing (tokenizer tokenizer' : Tokenizer)
    (token : list byte) (id : Z) (text : cstring) :
  addToken_store tokenizer token id = Some tokenizer' ->
  (forall i, ~ token `prefix_of` drop i (take (strlen text) text)) ->
  encode tokenizer' text = encode tokenizer text.
Proof.
  intros (_ & Hroot & _)%addToken_store_inv Habsent.
  unfold encode. rewrite Hroot. apply encode_loop_same.
  intros i Hi. apply findLongest_local. intros k Hk.
  rewrite trie_value_insert. case_decide as Heq; [|done].
  exfalso. apply (Habsent i). rewrite <- Heq.
  rewrite <- encode_data_take. etrans; [apply prefix_take|].
  apply prefix_take.
Qed.

Lemma absent_token_changes_nothing_witness :
  encode (default createTokenizer
            (addToken_store sample_tokenizer (bytes "xy") 402)) (bytes "the")
  = encode sample_tokenizer (bytes "the").
Proof.
  apply (absent_token_changes_nothing sample_tokenizer _ (bytes "xy") 402).
  - reflexivity.
  - intros i [k Hk].
    do 3 (destruct i as [|i]; [cbv in Hk; discriminate|]).
    destruct i; cbv in Hk; discriminate.
Defined.

(** ** What the ids of [encode] stand for *)

Section Pieces.

Variables (vocab : list (list byte * Z)) (tokenizer : Tokenizer) (text : cstring).
Hypothesis loaded : storeTokens createTokenizer vocab = Some tokenizer.

Lemma encode_step_piece index :
  (index < strlen text)%nat ->
  let r := encode_step (root tokenizer) text (strlen text) index in
  (index < r.2 <= strlen text)%nat /\
  piece vocab r.1 (take (r.2 - index) (drop index text)).
Proof.
  intros Hlt r. split; [by apply encode_step_advance|]. subst r.
  destruct (loaded_inv _ _ loaded) as (Hroot & _).
  pose proof (strlen_le text) as Hle.
  destruct (lookup_lt_is_Some_2 text index ltac:(lia)) as [c Hc].
  assert (Hbyte : piece vocab (Z_of_byte c)
                    (take (S index - index) (drop index text))).
  { left. exists c. split; [|done].
    replace (S index - index)%nat with 1%nat by lia.
    by rewrite (drop_S _ _ _ Hc). }
  set (data := take (strlen text - index) (drop index text)).
  destruct (findLongest_spec (root tokenizer) data)
    as [[Hr _] | (k & Hk & Hr & Hne & _)];
    rewrite (encode_step_cases _ _ _ _ _ _ Hr); simpl.
  { by rewrite Hc. }
  case_decide; simpl; [by rewrite Hc|].
  assert (Hdata : take k data = take k (drop index text)).
  { unfold data. rewrite take_take. f_equal. unfold data in Hk.
    rewrite length_take in Hk. lia. }
  rewrite Hdata in *. replace (index + k - index)%nat with k by lia.
  right. split.
  - intros Hnil%(f_equal length). rewrite <- Hdata, length_take in Hnil.
    simpl in Hnil. lia.
  - rewrite Hroot, trie_value_built in Hne |- *.
    by destruct (latest vocab _).
Qed.

Lemma encode_loop_pieces fuel index encoded res :
  (index <= strlen text)%nat ->
  encode_loop fuel (root tokenizer) text (strlen text) index encoded = Some res ->
  exists new segs,
    res = encoded ++ new /\
    Forall2 (piece vocab) new segs /\
    concat segs = take (strlen text - index) (drop index text).
Proof.
  revert index encoded.
  induction fuel as [|fuel IH]; intros index encoded Hle.
  { simpl. case_decide; [done|]. intros [= <-]. exists [], [].
    rewrite app_nil_r. replace (strlen text - index)%nat with 0%nat by lia.
    by rewrite take_0. }
  destruct (decide (index < strlen text)%nat) as [Hlt|Hge].
  2:{ rewrite encode_loop_done by lia. intros [= <-]. exists [], [].
      rewrite app_nil_r. replace (strlen text - index)%nat with 0%nat by lia.
      by rewrite take_0. }
  rewrite encode_loop_unfold by done.
  destruct (encode_step_piece index Hlt) as (Hadv & Hpiece).
  destruct (encode_step (root tokenizer) text (strlen text) index)
    as [id index'].
  simpl in *. intros (new & segs & -> & Hall & Hcat)%IH; [|lia].
  exists (id :: new), (take (index' - index) (drop index text) :: segs).
  rewrite <- app_assoc. split; [done|]. split; [by constructor|].
  simpl. rewrite Hcat.
  replace (drop index' text)
    with (drop (index' - index) (drop index text))
    by (rewrite drop_drop; f_equal; lia).
  rewrite take_take_drop. f_equal. lia.
Qed.

End Pieces.

(** X10. The ids of [encode] are a cut of the text into consecutive pieces,
    in order and with nothing left out: each id is either the value of one
    byte of the text, or the id that the latest registration of a token of
    the vocabulary gave to it, for a piece of the text equal to that token.
    All the ids are indices of the table. *)
Theorem encode_cuts_the_text (vocab : list (list byte * Z))
    (tokenizer : Tokenizer) (text : cstring) (ids : list Z) :
  storeTokens createTokenizer vocab = Some tokenizer ->
  encode tokenizer text = Some ids ->
  exists segs,
    Forall2 (piece vocab) ids segs /\
    concat segs = take (strlen text) text /\
    Forall (fun id => 0 <= id < MAX_TOKENS) ids.
Proof.
  intros Hload Henc. unfold encode in Henc.
  destruct (encode_loop_pieces vocab tokenizer text Hload _ 0 [] ids
              ltac:(lia) Henc) as (new & segs & Hids & Hall & Hcat).
  simpl in Hids. subst new. rewrite Nat.sub_0_r, drop_0 in Hcat.
  exists segs. split; [done|]. split; [done|].
  destruct (loaded_inv _ _ Hload) as (_ & _ & Hrange & _).
  clear -Hall Hrange. induction Hall as [|id seg ids segs Hp _ IH]; [done|].
  constructor; [|done].
  destruct Hp as [(c & _ & ->)|[_ Hl]].
  - pose proof (Z_of_byte_range c). unfold MAX_TOKENS. lia.
  - apply latest_elem in Hl.
    apply (proj1 (Forall_forall _ _) Hrange (seg, id) Hl).
Qed.

Lemma encode_cuts_the_text_witness :
  exists segs,
    Forall2 (piece sample_vocab) [400; 32; 114; 101] segs /\
    concat segs = take (strlen (bytes "the re")) (bytes "the re") /\
    Forall (fun id => 0 <= id < MAX_TOKENS) [400; 32; 114; 101].
Proof.
  apply (encode_cuts_the_text sample_vocab sample_tokenizer (bytes "the re")).
  - reflexivity.
  - vm_compute. reflexivity.
Defined.

(** X11. What one iteration of [encode] does at a position, in terms of the
    vocabulary.  When no token starts at the position, it emits the byte
    and moves by one.  When the longest token that starts there has a
    length other than the position itself, it emits the id of that token
    and moves past it; when its length is equal to the position, it emits
    the byte and moves by one. *)
Theorem encode_step_by_vocabulary (vocab : list (list byte * Z))
    (tokenizer : Tokenizer) (text : cstring) (index : nat) :
  storeTokens createTokenizer vocab = Some tokenizer ->
  (index < strlen text)%nat ->
  let data := drop index (take (strlen text) text) in
  let fallback := (Z_of_byte (default x00 (text !! index)), S index) in
  ((forall b v, registered vocab b v -> ~ b `prefix_of` data) ->
   encode_step (root tokenizer) text (strlen text) index = fallback) /\
  (forall b v,
     registered vocab b v -> b `prefix_of` data ->
     (forall b' v', registered vocab b' v' -> b' `prefix_of` data ->
                    (length b' <= length b)%nat) ->
     encode_step (root tokenizer) text (strlen text) index =
     if decide (length b = index) then fallback
     else (v, (index + length b)%nat)).
Proof.
  intros Hload Hlt data fallback.
  destruct (loaded_inv _ _ Hload) as (Hroot & _ & Hrange & _).
  assert (Hdata : take (strlen text - index) (drop index text) = data).
  { unfold data. rewrite take_drop_commute. do 2 f_equal. lia. }
  assert (Hreg : forall b v, registered vocab b v -> b `prefix_of` data ->
            (0 < length b <= length data)%nat /\
            trie_value (root tokenizer) (take (length b) data) = v /\ v <> -1).
  { intros b v [Hne Hl] Hp. split.
    - split; [destruct b; [done | simpl; lia] | by apply prefix_length].
    - rewrite (prefix_take_length _ _ Hp), Hroot, trie_value_built, Hl.
      split; [done|]. apply latest_elem in Hl.
      pose proof (proj1 (Forall_forall _ _) Hrange _ Hl) as Hr. simpl in Hr. lia. }
  assert (Hfound : forall k,
            (0 < k <= length data)%nat ->
            trie_value (root tokenizer) (take k data) <> -1 ->
            registered vocab (take k data) (trie_value (root tokenizer) (take k data))
            /\ take k data `prefix_of` data /\ length (take k data) = k).
  { intros k Hk Hne. split; [split|split].
    - intros Hnil%(f_equal length). rewrite length_take in Hnil.
      simpl in Hnil. lia.
    - rewrite Hroot, trie_value_built in Hne |- *.
      by destruct (latest vocab _).
    - apply prefix_take.
    - rewrite length_take. lia. }
  pose proof (encode_step_cases (root tokenizer) text (strlen text) index)
    as Hstep.
  rewrite Hdata in Hstep.
  destruct (findLongest_spec (root tokenizer) data)
    as [[Hr Hnone] | (k & Hk & Hr & Hne & Hlong)];
    rewrite (Hstep _ _ Hr).
  - split; [intros _; by rewrite decide_True by (by left)|].
    intros b v Hb Hp _. exfalso.
    destruct (Hreg _ _ Hb Hp) as (Hlen & Hval & Hv).
    rewrite Hnone in Hval by done. congruence.
  - destruct (Hfound k Hk Hne) as (Hkreg & Hkpre & Hklen).
    split.
    { intros Hnone. exfalso. by apply (Hnone _ _ Hkreg). }
    intros b v Hb Hp Hmax.
    destruct (Hreg _ _ Hb Hp) as (Hlen & Hval & Hv).
    assert (k = length b) as ->.
    { pose proof (Hmax _ _ Hkreg Hkpre) as Hle. rewrite Hklen in Hle.
      destruct (decide (k < length b)%nat) as [Hkb|]; [|lia].
      exfalso. rewrite Hlong in Hval by lia. congruence. }
    rewrite Hval.
    destruct (decide (length b = index)) as [Heq|Hneq].
    + by rewrite decide_True by (by right).
    + rewrite decide_False; [done|]. lia.
Qed.

Lemma encode_step_by_vocabulary_witness :
  encode_step (root sample_tokenizer) (bytes "_there")
    (strlen (bytes "_there")) 1 = (401, 6%nat).
Proof.
  refine (proj2 (encode_step_by_vocabulary sample_vocab sample_tokenizer
                   (bytes "_there") 1 _ _) (bytes "there") 401 _ _ _).
  - reflexivity.
  - vm_compute. lia.
  - split; [discriminate | reflexivity].
  - exists []. reflexivity.
  - intros b' v' _ Hp%prefix_length. vm_compute in Hp |- *. exact Hp.
Defined.

(** X12. The state a load leaves.  [num_tokens] is the number of entries
    that were parsed, repeated ids and repeated byte-strings included; the
    trie gives each byte-string the id of its latest entry; the table gives
    each id the byte-string of its latest entry; and every id of an entry is
    an index of the table.  Entries that the parser rejects leave no
    trace. *)
Theorem load_state (entries : list (cstring * Z)) (tokenizer : Tokenizer) :
  addTokens createTokenizer entries = Some tokenizer ->
  num_tokens tokenizer = Z.of_nat (length (parsed entries)) /\
  (forall key, trie_value (root tokenizer) key
               = default (-1) (latest (parsed entries) key)) /\
  (forall id, idx2token tokenizer !! id = latest_token (parsed entries) id) /\
  Forall (fun e => 0 <= e.2 < MAX_TOKENS) (parsed entries).
Proof.
  intros (Hroot & Hnum & Hrange & Htab)%addTokens_storeTokens%loaded_inv.
  split; [done|]. split; [|by split].
  intros key. by rewrite Hroot, trie_value_built.
Qed.

Lemma load_state_witness :
  num_tokens sample_tokenizer = Z.of_nat (length (parsed sample_entries)).
Proof.
  apply (load_state sample_entries sample_tokenizer).
  apply addTokens_defined. vm_compute. exact I.
Defined.

(** ** More on the decoder *)

Section DecodeMore.

Variable tokenizer : Tokenizer.
Implicit Types (tokens : list Z) (decoded : list byte).

(** The first loop only adds to [total_length]. *)
Lemma decode_total_shift tokens total :
  decode_total tokenizer tokens total =
  match decode_total tokenizer tokens 0 with
  | DecodeOk m => DecodeOk (total + m)%nat
  | UnknownTokenId id => UnknownTokenId id
  | TableOutOfBounds id => TableOutOfBounds id
  end.
Proof.
  revert total. induction tokens as [|id tokens IH]; intros total; simpl.
  { f_equal. lia. }
  assert (Hstep : forall k,
            decode_total tokenizer tokens (total + k) =
            match decode_total tokenizer tokens (0 + k) with
            | DecodeOk m => DecodeOk (total + m)%nat
            | UnknownTokenId id => UnknownTokenId id
            | TableOutOfBounds id => TableOutOfBounds id
            end).
  { intros k. rewrite (IH (total + k)%nat), (IH (0 + k)%nat).
    destruct (decode_total tokenizer tokens 0); [f_equal; lia | done..]. }
  repeat case_decide; try done; try apply Hstep.
  destruct (idx2token tokenizer !! id); [apply Hstep | done].
Qed.

Lemma decode_total_app tokens1 tokens2 total :
  decode_total tokenizer (tokens1 ++ tokens2) total =
  match decode_total tokenizer tokens1 total with
  | DecodeOk m => decode_total tokenizer tokens2 m
  | UnknownTokenId id => UnknownTokenId id
  | TableOutOfBounds id => TableOutOfBounds id
  end.
Proof.
  revert total. induction tokens1 as [|id tokens1 IH]; intros total; simpl.
  { done. }
  repeat case_decide; try done; try apply IH.
  destruct (idx2token tokenizer !! id); [apply IH | done].
Qed.

Lemma decode_fill_app tokens1 tokens2 decoded :
  decode_fill tokenizer (tokens1 ++ tokens2) decoded =
  decode_fill tokenizer tokens2 (decode_fill tokenizer tokens1 decoded).
Proof.
  revert decoded. induction tokens1 as [|id tokens1 IH]; intros decoded; simpl.
  { done. }
  repeat case_decide; try apply IH.
  destruct (idx2token tokenizer !! id); apply IH.
Qed.

Lemma decode_fill_acc tokens decoded :
  decode_fill tokenizer tokens decoded =
  decoded ++ decode_fill tokenizer tokens [].
Proof.
  revert decoded. induction tokens as [|id tokens IH]; intros decoded; simpl.
  { by rewrite app_nil_r. }
  repeat case_decide.
  - rewrite (IH (decoded ++ _)), (IH [_]). by rewrite <- app_assoc.
  - destruct (idx2token tokenizer !! id); [|apply IH].
    rewrite (IH (decoded ++ _)), (IH (take _ _)). by rewrite <- app_assoc.
  - apply IH.
Qed.

Lemma decode_app tokens1 tokens2 :
  decode tokenizer (tokens1 ++ tokens2) =
  match decode tokenizer tokens1 with
  | DecodeOk out1 =>
      match decode tokenizer tokens2 with
      | DecodeOk out2 => DecodeOk (out1 ++ out2)
      | UnknownTokenId id => UnknownTokenId id
      | TableOutOfBounds id => TableOutOfBounds id
      end
  | UnknownTokenId id => UnknownTokenId id
  | TableOutOfBounds id => TableOutOfBounds id
  end.
Proof.
  unfold decode. rewrite decode_total_app.
  destruct (decode_total tokenizer tokens1 0) as [m| |]; [|done..].
  rewrite decode_total_shift.
  destruct (decode_total tokenizer tokens2 0); [|done..].
  by rewrite decode_fill_app, decode_fill_acc.
Qed.

Lemma decode_one id :
  decode tokenizer [id] =
  if decide (id < 256) then DecodeOk [byte_of_Z id]
  else if decide (id < num_tokens tokenizer) then
    if decide (id < MAX_TOKENS) then
      match idx2token tokenizer !! id with
      | Some s => DecodeOk (take (strlen s) s)
      | None => UnknownTokenId id
      end
    else TableOutOfBounds id
  else UnknownTokenId id.
Proof.
  unfold decode. simpl. repeat case_decide; try done; try tauto.
  by destruct (idx2token tokenizer !! id).
Qed.

Lemma decode_cons id tokens :
  decode tokenizer (id :: tokens) =
  match decode tokenizer [id] with
  | DecodeOk out1 =>
      match decode tokenizer tokens with
      | DecodeOk out2 => DecodeOk (out1 ++ out2)
      | UnknownTokenId id => UnknownTokenId id
      | TableOutOfBounds id => TableOutOfBounds id
      end
  | UnknownTokenId id => UnknownTokenId id
  | TableOutOfBounds id => TableOutOfBounds id
  end.
Proof. apply (decode_app [id] tokens). Qed.

Lemma decode_total_out_of_bounds tokens total id :
  decode_total tokenizer tokens total = TableOutOfBounds id ->
  id ∈ tokens /\ MAX_TOKENS <= id < num_tokens tokenizer.
Proof.
  revert total. induction tokens as [|id0 tokens IH]; intros total; simpl.
  { done. }
  rewrite elem_of_cons.
  repeat case_decide; try done.
  - intros ?%IH. tauto.
  - destruct (idx2token tokenizer !! id0); [|done]. intros ?%IH. tauto.
  - intros [= <-]. split; [by left | lia].
Qed.

End DecodeMore.

(** X13. [decode] is a homomorphism for concatenation: the decoding of two
    sequences of ids put end to end is the two decodings put end to end,
    and it fails as the first of the two that fails. *)
Theorem decode_of_concatenation (tokenizer : Tokenizer) (tokens1 tokens2 : list Z) :
  decode tokenizer (tokens1 ++ tokens2) =
  match decode tokenizer tokens1 with
  | DecodeOk out1 =>
      match decode tokenizer tokens2 with
      | DecodeOk out2 => DecodeOk (out1 ++ out2)
      | UnknownTokenId id => UnknownTokenId id
      | TableOutOfBounds id => TableOutOfBounds id
      end
  | UnknownTokenId id => UnknownTokenId id
  | TableOutOfBounds id => TableOutOfBounds id
  end.
Proof. apply decode_app. Qed.

(** X14. Bytes always decode: whatever the vocabulary, also one that has
    entries under ids below 256, [decode] of the values of the bytes of a
    buffer succeeds and returns the buffer. *)
Theorem decode_of_bytes (tokenizer : Tokenizer) (t : list byte) :
  decode tokenizer (Z_of_byte <$> t) = DecodeOk t.
Proof.
  induction t as [|c t IH]; [done|].
  rewrite fmap_cons, decode_cons, IH, decode_one.
  pose proof (Z_of_byte_range c).
  rewrite decide_True by lia. by rewrite byte_of_Z_of_byte.
Qed.

(** X15. The buffer of [decode] has the right size: when the first loop
    accepts the ids, the [total_length] it computes is the number of bytes
    the second loop writes, so these and the terminator fill the
    [total_length + 1] bytes that were allocated. *)
Theorem decode_fills_its_buffer (tokenizer : Tokenizer) (tokens : list Z)
    (out : list byte) :
  decode tokenizer tokens = DecodeOk out ->
  decode_total tokenizer tokens 0 = DecodeOk (length out) /\
  length (decode_fill tokenizer tokens []) = length out.
Proof.
  unfold decode. destruct (decode_total tokenizer tokens 0) as [m| |] eqn:Ht;
    [|done..].
  intros [= <-]. split; [|done]. f_equal.
  pose proof (decode_fill_length _ _ _ _ [] Ht) as Hlen. simpl in Hlen. lia.
Qed.

Lemma decode_fills_its_buffer_witness :
  decode_total nul_tokenizer [104; 256; 105] 0
  = DecodeOk (length (bytes "hai")) /\
  length (decode_fill nul_tokenizer [104; 256; 105] []) = length (bytes "hai").
Proof.
  apply (decode_fills_its_buffer nul_tokenizer [104; 256; 105] (bytes "hai")).
  vm_compute. reflexivity.
Defined.

(** X16. [decode] reads [idx2token] past its end only for an id from
    [MAX_TOKENS] up that is below [num_tokens]: never when at most
    [MAX_TOKENS] entries were registered, and on the id [MAX_TOKENS] itself
    once more were. *)
Theorem decode_table_bounds (tokenizer : Tokenizer) (tokens : list Z) :
  (forall id, decode tokenizer tokens = TableOutOfBounds id ->
              id ∈ tokens /\ MAX_TOKENS <= id < num_tokens tokenizer) /\
  (num_tokens tokenizer <= MAX_TOKENS ->
   forall id, decode tokenizer tokens <> TableOutOfBounds id) /\
  (MAX_TOKENS < num_tokens tokenizer ->
   decode tokenizer [MAX_TOKENS] = TableOutOfBounds MAX_TOKENS).
Proof.
  assert (Hoob : forall id, decode tokenizer tokens = TableOutOfBounds id ->
            id ∈ tokens /\ MAX_TOKENS <= id < num_tokens tokenizer).
  { intros id. unfold decode.
    destruct (decode_total tokenizer tokens 0) eqn:Ht; [done..|].
    intros [= <-]. by apply decode_total_out_of_bounds in Ht. }
  split; [done|]. split.
  - intros Hsmall id Hd. apply Hoob in Hd. lia.
  - intros Hbig. rewrite decode_one.
    rewrite decide_False by (unfold MAX_TOKENS; lia).
    rewrite decide_True by done. by rewrite decide_False by lia.
Qed.

Lemma decode_table_bounds_witness :
  decode sample_tokenizer [100000; 401] <> TableOutOfBounds 100000.
Proof.
  apply (proj1 (proj2 (decode_table_bounds sample_tokenizer [100000; 401]))).
  vm_compute. discriminate.
Defined.

(** X17. When [decode] fails with "Unknown token ID", the id it reports is
    the first one of the sequence that its test rejects: every id before it
    is below 256 or passes the test, and the id itself is 256 or more and
    either is not below [num_tokens] or has no entry in the table.
    Conversely such an id makes [decode] fail, with that id. *)
Theorem decode_reports_first_unknown (tokenizer : Tokenizer) (tokens : list Z)
    (id : Z) :
  decode tokenizer tokens = UnknownTokenId id <->
  exists before after,
    tokens = before ++ id :: after /\
    Forall (accepted tokenizer) before /\
    256 <= id /\
    (num_tokens tokenizer <= id \/
     (id < MAX_TOKENS /\ idx2token tokenizer !! id = None)).
Proof.
  split.
  - induction tokens as [|id0 tokens IH]; [done|].
    rewrite decode_cons, decode_one.
    assert (Hrest : accepted tokenizer id0 ->
              decode tokenizer tokens = UnknownTokenId id ->
              exists before after,
                id0 :: tokens = before ++ id :: after /\
                Forall (accepted tokenizer) before /\ 256 <= id /\
                (num_tokens tokenizer <= id \/
                 (id < MAX_TOKENS /\ idx2token tokenizer !! id = None))).
    { intros Hacc (before & after & -> & Hall & Hrest)%IH.
      exists (id0 :: before), after. split; [done|].
      split; [by constructor | done]. }
    case_decide as H256.
    { destruct (decode tokenizer tokens) eqn:Hd; try done.
      intros [= ->]. apply Hrest; [by left | done]. }
    case_decide as Hnum.
    2:{ intros [= <-]. exists [], tokens. split; [done|].
        split; [done|]. split; lia. }
    case_decide as Hmax; [|done].
    destruct (idx2token tokenizer !! id0) as [s|] eqn:Hs.
    + destruct (decode tokenizer tokens) eqn:Hd; try done.
      intros [= ->]. apply Hrest; [|done]. right. by eauto.
    + intros [= <-]. exists [], tokens. split; [done|].
      split; [done|]. split; [lia | by right].
  - intros (before & after & -> & Hall & Hge & Hwhy).
    rewrite decode_app.
    apply decode_ok_iff in Hall as [out ->].
    rewrite decode_cons, decode_one.
    rewrite decide_False by lia.
    destruct Hwhy as [Hnum|[Hmax Hnone]].
    + by rewrite decide_False by lia.
    + case_decide; [|done]. rewrite decide_True by done. by rewrite Hnone.
Qed.

Lemma decode_reports_first_unknown_witness :
  decode sample_tokenizer [104; 401; 999] = UnknownTokenId 401.
Proof.
  apply (proj2 (decode_reports_first_unknown sample_tokenizer [104; 401; 999] 401)).
  exists [104], [999]. split; [reflexivity|].
  split; [repeat constructor; vm_compute; reflexivity|].
  split; [lia|]. left. vm_compute. discriminate.
Defined.

(** X18. The round trip, as far as it goes.  For a vocabulary whose ids are
    256 or more and stand each for one token, and a text with no NUL byte,
    the bytes that [decode] writes for the ids of [encode] are the text; so
    [decode] returns the text when every id that [encode] emitted is a byte
    or is below [num_tokens], and when it fails it is because an id that is
    registered is not below [num_tokens]. *)
Theorem roundtrip_when_accepted (vocab : list (list byte * Z))
    (tokenizer : Tokenizer) (t : cstring) (ids : list Z) :
  storeTokens createTokenizer vocab = Some tokenizer ->
  valid_vocab vocab ->
  x00 ∉ t ->
  encode tokenizer t = Some ids ->
  concat (emission tokenizer <$> ids) = t /\
  (Forall (fun id => id < 256 \/ id < num_tokens tokenizer) ids ->
   decode tokenizer ids = DecodeOk t) /\
  (forall id, decode tokenizer ids = UnknownTokenId id ->
     256 <= id /\ num_tokens tokenizer <= id /\
     is_Some (idx2token tokenizer !! id)) /\
  (forall id, decode tokenizer ids <> TableOutOfBounds id).
Proof.
  intros Hload Hvalid Hnul Henc.
  by apply (roundtrip_up_to_gate vocab tokenizer t).
Qed.

Lemma roundtrip_when_accepted_witness :
  concat (emission sample_tokenizer <$> [400; 32; 114; 101]) = bytes "the re".
Proof.
  apply (roundtrip_when_accepted sample_vocab sample_tokenizer (bytes "the re")).
  - reflexivity.
  - apply sample_vocab_valid.
  - intros Hin. apply list_elem_of_In in Hin. cbv in Hin.
    repeat (destruct Hin as [Hin|Hin]; [discriminate|]). exact Hin.
  - vm_compute. reflexivity.
Defined.

(** ** A new tokenizer *)

(** X19. The tokenizer that [createTokenizer] returns knows no token:
    [encode] gives every text as the values of its bytes, up to the first
    NUL byte, and [decode] accepts the ids below 256 and no other. *)
Theorem new_tokenizer_knows_no_token (text : cstring) (tokens : list Z) :
  encode createTokenizer text = Some (Z_of_byte <$> take (strlen text) text) /\
  ((exists out, decode createTokenizer tokens = DecodeOk out) <->
   Forall (fun id => id < 256) tokens).
Proof.
  split.
  - unfold encode.
    rewrite encode_loop_fallback; [by rewrite Nat.sub_0_r, drop_0| |apply strlen_le|lia].
    intros index _. by destruct (take _ _).
  - rewrite decode_ok_iff. apply Forall_proper; [|done].
    intros id. unfold accepted. simpl. split; [|by left].
    intros [?|(Hlt & _)]; [done | lia].
Qed.

(** ** More data for [findLongest] *)

(** X20. Giving [findLongest] more data never gives a shorter match, and
    gives the same result whenever the match it then finds ends inside the
    data it had. *)
Theorem findLongest_with_more_data (root : TrieNode) (data more : list byte) :
  ((findLongest root data).2 <= (findLongest root (data ++ more)).2)%nat /\
  (((findLongest root (data ++ more)).2 <= length data)%nat ->
   findLongest root (data ++ more) = findLongest root data).
Proof.
  assert (Htake : forall k, (k <= length data)%nat ->
            take k (data ++ more) = take k data)
    by (intros; by apply take_app_le).
  destruct (findLongest_spec root data)
    as [[-> H1] | (k1 & Hk1 & -> & Hne1 & Hl1)],
     (findLongest_spec root (data ++ more))
    as [[-> H2] | (k2 & Hk2 & -> & Hne2 & Hl2)]; simpl.
  - split; [lia | done].
  - split; [lia|]. intros Hin. exfalso. apply Hne2.
    rewrite Htake by done. apply H1. lia.
  - exfalso. apply Hne1. rewrite <- Htake by lia. apply H2.
    rewrite length_app. lia.
  - assert (Hle : (k1 <= k2)%nat).
    { destruct (decide (k1 <= k2)%nat); [done|].
      exfalso. apply Hne1. rewrite <- Htake by lia. apply Hl2.
      rewrite length_app. lia. }
    split; [done|]. intros Hin.
    assert (k2 = k1) as ->.
    { destruct (decide (k1 < k2)%nat); [|lia].
      exfalso. apply Hne2. rewrite Htake by done. apply Hl1. lia. }
    by rewrite Htake by lia.
Qed.

Lemma findLongest_with_more_data_witness :
  findLongest (root sample_tokenizer) (bytes "the" ++ bytes " re")
  = findLongest (root sample_tokenizer) (bytes "the").
Proof.
  apply (proj2 (findLongest_with_more_data (root sample_tokenizer)
                  (bytes "the") (bytes " re"))).
  vm_compute. lia.
Defined.

(** ** The quotes of the vocabulary file *)

(** X21. [main] removes the quotes of a plain string entry before it calls
    [addToken], and the parser then takes the first byte of the token for
    the quote.  For an entry ['content'] or ["content"] whose content has
    one byte or more, no NUL byte and no backslash, and does not start with
    [b], the string that reaches [addToken] is the content, followed in
    memory by two NUL bytes, and the parser never returns the content for
    it: the token of the entry is not what gets registered. *)
Theorem main_loses_plain_entries (quote c : byte) (rest : list byte)
    (out_len : nat) :
  quote = single_quote \/ quote = double_quote ->
  c <> "b"%byte ->
  x00 ∉ c :: rest -> backslash ∉ c :: rest ->
  strip_quotes (quote :: (c :: rest) ++ [quote])
  = Some ((c :: rest) ++ [x00; x00]) /\
  parse_python_literal ((c :: rest) ++ [x00; x00]) out_len
  <> ParseOk (c :: rest).
Proof.
  intros Hquote Hb Hnul Hbs.
  assert (Hq0 : quote <> x00) by (destruct Hquote as [->| ->]; done).
  split.
  - unfold strip_quotes. rewrite decide_True by done.
    assert (Hlen : strlen (quote :: (c :: rest) ++ [quote])
                   = S (S (S (length rest)))).
    { rewrite strlen_no_nul.
      - simpl. rewrite length_app. simpl. lia.
      - intros Hin. apply elem_of_cons in Hin as [Hin|Hin]; [done|].
        apply elem_of_app in Hin as [Hin|Hin]; [done|].
        apply list_elem_of_singleton in Hin. done. }
    rewrite Hlen. rewrite decide_False by lia.
    replace (S (S (S (length rest))) - 1)%nat
      with (length ((c :: rest) ++ [quote])) by (rewrite length_app; simpl; lia).
    rewrite firstn_all.
    rewrite drop_ge by (simpl; rewrite length_app; simpl; lia).
    rewrite <- app_assoc.
    replace (S (S (S (length rest))) - 2)%nat
      with (length (c :: rest) + 0)%nat by (simpl; lia).
    by rewrite insert_app_r.
  - apply not_elem_of_cons in Hnul as [Hc0 Hr0], Hbs as [Hcb Hrb].
    unfold parse_python_literal. cbn [app]. rewrite decide_False by done.
    intros Hparse.
    destruct (decide (c ∈ rest)) as [Hin|Hnin].
    + apply list_elem_of_split_l in Hin as (mid & tail & -> & Hmid).
      assert (Hbmid : backslash ∉ mid).
      { intros Hin. apply Hrb. apply elem_of_app. by left. }
      rewrite <- (take_drop out_len mid), <- !app_assoc in Hparse.
      rewrite parse_loop_copy in Hparse.
      * assert (Hres : parse_loop c out_len
                         (drop out_len mid ++ (c :: tail) ++ [x00; x00])
                         ([] ++ take out_len mid)
                       = ParseOk (take out_len mid)).
        { simpl. destruct (drop out_len mid) as [|d dm] eqn:Hd; cbn [app parse_loop].
          - by rewrite decide_True.
          - assert (d ∈ mid)
              by (apply (subseteq_drop out_len); rewrite Hd; by left).
            rewrite decide_False by (intros ->; done).
            rewrite decide_False; [done|].
            rewrite length_take.
            assert (out_len < length mid)%nat; [|lia].
            destruct (decide (out_len < length mid)%nat); [done|].
            rewrite drop_ge in Hd by lia. done. }
        rewrite Hres in Hparse. injection Hparse as Hparse.
        assert (Hc : c ∈ take out_len mid) by (rewrite Hparse; by left).
        by apply (subseteq_take out_len) in Hc.
      * intros Hin. by apply (subseteq_take out_len) in Hin.
      * intros Hin. by apply (subseteq_take out_len) in Hin.
      * simpl. rewrite length_take. lia.
    + set (body := rest ++ [x00; x00]) in *.
      assert (Hcbody : c ∉ body).
      { unfold body. intros Hin. apply elem_of_app in Hin as [Hin|Hin]; [done|].
        apply list_elem_of_In in Hin. simpl in Hin.
        destruct Hin as [?|[?|[]]]; by subst. }
      assert (Hbbody : backslash ∉ body).
      { unfold body. intros Hin. apply elem_of_app in Hin as [Hin|Hin]; [done|].
        apply list_elem_of_In in Hin. simpl in Hin.
        destruct Hin as [?|[?|[]]]; done. }
      rewrite <- (take_drop out_len body) in Hparse.
      rewrite parse_loop_copy in Hparse.
      * simpl in Hparse.
        destruct (drop out_len body) as [|d dm] eqn:Hd; cbn [parse_loop] in Hparse.
        -- rewrite decide_False in Hparse by done.
           case_decide as Hroom; [done|].
           injection Hparse as Hparse.
           assert (Hc : c ∈ take out_len body) by (rewrite Hparse; by left).
           by apply (subseteq_take out_len) in Hc.
        -- assert (d ∈ body)
             by (apply (subseteq_drop out_len); rewrite Hd; by left).
           rewrite decide_False in Hparse by (intros ->; done).
           case_decide as Hroom.
           { rewrite length_take in Hroom.
             assert (length body <= out_len)%nat by lia.
             rewrite drop_ge in Hd by done. done. }
           injection Hparse as Hparse.
           assert (Hc : c ∈ take out_len body) by (rewrite Hparse; by left).
           by apply (subseteq_take out_len) in Hc.
      * intros Hin. by apply (subseteq_take out_len) in Hin.
      * intros Hin. by apply (subseteq_take out_len) in Hin.
      * simpl. rewrite length_take. lia.
Qed.

Lemma main_loses_plain_entries_witness :
  strip_quotes (bytes "'the'") = Some (bytes "the" ++ [x00; x00]) /\
  parse_python_literal (bytes "the" ++ [x00; x00]) 256 <> ParseOk (bytes "the").
Proof.
  apply (main_loses_plain_entries single_quote "t"%byte (bytes "he") 256).
  - by left.
  - discriminate.
  - intros Hin. apply list_elem_of_In in Hin. cbv in Hin.
    repeat (destruct Hin as [Hin|Hin]; [discriminate|]). exact Hin.
  - intros Hin. apply list_elem_of_In in Hin. cbv in Hin.
    repeat (destruct Hin as [Hin|Hin]; [discriminate|]). exact Hin.
Defined.
